(** * mini-manim: the animation scheduling and interpolation core

    A shallow embedding of [mini_manim/core/timeline.py],
    [mini_manim/core/animation.py] and [mini_manim/animations/*.py].

    Conventions of the embedding.
    - A Python [float] is an exact rational ([Q]) in the main development:
      every general statement is proved in exact arithmetic, and is phrased
      with the comparisons and expressions the code itself evaluates, so that
      it does not depend on [i * per + per] being [(i + 1) * per] or on
      [start + (end - start)] being [end].  Rounding is studied apart: the
      module [Binary64] transcribes the same lines of the source over
      primitive binary64 floats, and the facts that hold in exact arithmetic
      only are refuted there on concrete inputs.  Infinities, NaN and
      quotients outside the range of a float are outside both.
      Python's [int] is [Z].
    - Python's [/] raises [ZeroDivisionError] on a zero divisor, a subscript
      on a dict raises [KeyError], a subscript on [None] raises [TypeError]:
      fallible code lives in the [result] monad.
    - A Python object is an attribute bag, a [dict] snapshot a finite map with
      string keys: both are [gmap string value].
    - A class becomes a module holding its record [t] and its methods; the
      subclasses of [Animation] are the constructors of [Animation.Kind].
    - The base class [Animation] and the module [mini_manim.easing] are
      imported by the source but not part of it; what is needed of them is
      modelled from the specification and marked as such. *)

From Stdlib Require Import QArith Qround Qminmax Lqa ZArith Lia Floats.
From stdpp Require Import base option list gmap strings.

Local Open Scope Q_scope.

(** ** Exceptions and the result monad *)

Inductive exn : Type :=
| ZeroDivisionError
| KeyError (key : string)
| AttributeError (name : string)
| TypeError.

Inductive result (A : Type) : Type :=
| Ok (a : A)
| Raise (e : exn).
Arguments Ok {A} a.
Arguments Raise {A} e.

#[global] Instance result_ret : MRet result := λ A a, Ok a.
#[global] Instance result_bind : MBind result := λ A B f m,
  match m with
  | Ok a => f a
  | Raise e => Raise e
  end.

(** ** Numbers *)

(** [x < y] on floats, as a boolean. *)
Definition Qlt_bool (x y : Q) : bool := negb (Qle_bool y x).
Arguments Qlt_bool : simpl never.

(** Python's true division [x / y]. *)
Definition pydiv (x y : Q) : result Q :=
  if Qeq_bool y 0 then Raise ZeroDivisionError else Ok (x / y).

(** Python's [int(x)] on a float: truncation toward zero. *)
Definition py_int (x : Q) : Z := Z.quot (Qnum x) (Zpos (Qden x)).

(** [float(n)] for a list length or a loop index. *)
Definition of_nat (n : nat) : Q := inject_Z (Z.of_nat n).

(** ** Attribute values

    An attribute is a scalar ([rotation], [scale_factor], [opacity]) or a
    2D numpy array ([position]).  Arithmetic follows numpy: component-wise on
    two arrays, a scalar is broadcast against an array. *)

Inductive value : Type :=
| VNum (x : Q)
| VVec (x y : Q).

Definition vlift2 (f : Q → Q → Q) (a b : value) : value :=
  match a, b with
  | VNum x, VNum y => VNum (f x y)
  | VNum x, VVec y1 y2 => VVec (f x y1) (f x y2)
  | VVec x1 x2, VNum y => VVec (f x1 y) (f x2 y)
  | VVec x1 x2, VVec y1 y2 => VVec (f x1 y1) (f x2 y2)
  end.

Definition vadd : value → value → value := vlift2 Qplus.
Definition vsub : value → value → value := vlift2 Qminus.
Definition vmul : value → value → value := vlift2 Qmult.

(** Equality of attribute values as numbers: same shape, components equal
    as rationals. *)
Definition value_eq (a b : value) : Prop :=
  match a, b with
  | VNum x, VNum y => x == y
  | VVec x1 x2, VVec y1 y2 => x1 == y1 ∧ x2 == y2
  | _, _ => False
  end.

(** A snapshot ([dict] from attribute name to value) and a target object
    (its attribute bag). *)
Abbreviation snapshot := (gmap string value).
Abbreviation MObject := (gmap string value).

(** [d[key]] where [d] is a dict or [None]. *)
Definition getitem (d : option snapshot) (key : string) : result value :=
  match d with
  | None => Raise TypeError
  | Some s =>
      match s !! key with
      | Some v => Ok v
      | None => Raise (KeyError key)
      end
  end.

(** [obj.name] *)
Definition getattr (m : MObject) (name : string) : result value :=
  match m !! name with
  | Some v => Ok v
  | None => Raise (AttributeError name)
  end.

(** Modelled from the spec: [mini_manim.easing.linear] is imported by every
    kind but is not in the source; "the default is the identity mapping
    (linear)". *)
Definition linear (t : Q) : Q := t.

(** ** Animation and its concrete kinds *)

Module Animation.

(** The subclasses of [Animation] with their constructor parameters. *)
Inductive Kind : Type :=
| Move (target : Q * Q)
| Scale (target_scale : Q)
| Rotate (angle : Q)
| FadeIn
| FadeOut.

Record t : Type := mk {
  kind : Kind;
  mobject : nat;                       (* identity of the target object *)
  duration : Q;
  easing : Q → Q;
  _initial_state : option snapshot;
  _final_state : option snapshot;
}.

Definition set_initial (a : t) (s : snapshot) : t :=
  mk (kind a) (mobject a) (duration a) (easing a) (Some s) (_final_state a).

Definition set_final (a : t) (s : snapshot) : t :=
  mk (kind a) (mobject a) (duration a) (easing a) (_initial_state a) (Some s).

(** [_capture_final_state] of move.py, scale.py, rotate.py and fade.py. *)
Definition _capture_final_state (a : t) : result snapshot :=
  match kind a with
  | Move (x, y) => Ok {[ "position" := VVec x y ]}
  | Scale target_scale =>
      initial_scale ← getitem (_initial_state a) "scale_factor";
      Ok {[ "scale_factor" := vmul initial_scale (VNum target_scale) ]}
  | Rotate angle =>
      initial_rotation ← getitem (_initial_state a) "rotation";
      Ok {[ "rotation" := vadd initial_rotation (VNum angle) ]}
  | FadeIn => Ok {[ "opacity" := VNum 1 ]}
  | FadeOut => Ok {[ "opacity" := VNum 0 ]}
  end.

(** The linear interpolation shared by Move, Scale and Rotate:
    [start + alpha * (end - start)]. *)
Definition lerp (start end_ : value) (alpha : Q) : value :=
  vadd start (vmul (VNum alpha) (vsub end_ start)).

(** [_interpolate] of move.py, scale.py, rotate.py and fade.py: the new
    attribute bag of the target. *)
Definition _interpolate (a : t) (alpha : Q) (m : MObject) : result MObject :=
  match kind a with
  | Move _ =>
      start_pos ← getitem (_initial_state a) "position";
      end_pos ← getitem (_final_state a) "position";
      Ok (<[ "position" := lerp start_pos end_pos alpha ]> m)
  | Scale _ =>
      start_scale ← getitem (_initial_state a) "scale_factor";
      end_scale ← getitem (_final_state a) "scale_factor";
      Ok (<[ "scale_factor" := lerp start_scale end_scale alpha ]> m)
  | Rotate _ =>
      start_rotation ← getitem (_initial_state a) "rotation";
      end_rotation ← getitem (_final_state a) "rotation";
      Ok (<[ "rotation" := lerp start_rotation end_rotation alpha ]> m)
  | FadeIn => Ok (<[ "opacity" := VNum alpha ]> m)
  | FadeOut => Ok (<[ "opacity" := VNum (1 - alpha) ]> m)
  end.

(** The attribute a kind governs (the key its hooks read and write). *)
Definition governed (k : Kind) : string :=
  match k with
  | Move _ => "position"
  | Scale _ => "scale_factor"
  | Rotate _ => "rotation"
  | FadeIn | FadeOut => "opacity"
  end.

(** Modelled from the spec: the base class [Animation] is imported by every
    kind from [mini_manim.core.animation] but is not defined in the source;
    [capture_initial] "reads the current state of the governed attribute(s)
    from the target and stores it as the initial snapshot", and "only
    populate[s] if unset". *)
Definition capture_initial (a : t) (m : MObject) : result t :=
  match _initial_state a with
  | Some _ => Ok a
  | None =>
      v ← getattr m (governed (kind a));
      Ok (set_initial a {[ governed (kind a) := v ]})
  end.

(** Modelled from the spec: the missing base class; [capture_final]
    "derives the final snapshot from the initial snapshot plus this
    Animation's declared target delta", "once, memoized", through the
    kind's [_capture_final_state] hook. *)
Definition capture_final (a : t) : result t :=
  match _final_state a with
  | Some _ => Ok a
  | None =>
      s ← _capture_final_state a;
      Ok (set_final a s)
  end.

(** Modelled from the spec: the missing base class; [evaluate(progress)]
    "lazily captures [the] initial snapshot on first evaluation", "applies
    the easing function to obtain eased progress, then linearly
    interpolates each governed attribute between initial and final snapshot
    values using eased progress, and writes the result onto the target
    object" through the kind's [_interpolate] hook; it does not clamp. *)
Definition evaluate (a : t) (progress : Q) (m : MObject) : result (t * MObject) :=
  a ← capture_initial a m;
  a ← capture_final a;
  let eased := easing a progress in
  m' ← _interpolate a eased m;
  Ok (a, m').

End Animation.

(** ** AnimationBuilder *)

Module AnimationBuilder.

(** The second component of a queued operation. *)
Inductive param : Type :=
| PTarget (target : Q * Q)
| PNum (x : Q)
| PNone.

Record t : Type := mk {
  mobject : nat;
  _pending_operations : list (string * param);
}.

Definition __init__ (mobject : nat) : t := mk mobject [].

Definition append (b : t) (op : string * param) : t :=
  mk (mobject b) (_pending_operations b ++ [op]).

Definition move_to (b : t) (target : Q * Q) : t := append b ("move_to", PTarget target).
Definition scale (b : t) (factor : Q) : t := append b ("scale", PNum factor).
Definition fade_in (b : t) : t := append b ("fade_in", PNone).
Definition fade_out (b : t) : t := append b ("fade_out", PNone).
Definition rotate (b : t) (angle : Q) : t := append b ("rotate", PNum angle).

(** [build]: the body is [return []]. *)
Definition build (b : t) (duration : Q) (easing : option (Q → Q)) : list Animation.t := [].

End AnimationBuilder.

(** ** AnimationBlock *)

Module AnimationBlock.

Record t : Type := mk {
  animations : list Animation.t;
  duration : Q;
  sequential : bool;
  per_animation_duration : Q;
}.

(** [__init__]: the division is guarded by [len(animations) > 0]. *)
Definition __init__ (animations : list Animation.t) (duration : Q) (sequential : bool) : t :=
  mk animations duration sequential
     (if sequential && (0 <? length animations)%nat
      then duration / of_nat (length animations)
      else duration).

(** The loop of the sequential branch; [i] is the index [enumerate] has
    reached and [active] the list built so far. *)
Fixpoint sequential_loop (per time : Q) (i : nat) (anims : list Animation.t)
    (active : list (Animation.t * Q)) : result (list (Animation.t * Q)) :=
  match anims with
  | [] => Ok active
  | anim :: rest =>
      let anim_start := of_nat i * per in
      let anim_end := anim_start + per in
      if Qle_bool anim_start time && Qlt_bool time anim_end then
        let local_time := time - anim_start in
        alpha ← pydiv local_time per;
        sequential_loop per time (S i) rest (active ++ [(anim, alpha)])
      else if Qle_bool anim_end time then
        sequential_loop per time (S i) rest (active ++ [(anim, 1)])
      else
        sequential_loop per time (S i) rest active
  end.

(** The loop of the parallel branch. *)
Fixpoint parallel_loop (time : Q) (anims : list Animation.t)
    (active : list (Animation.t * Q)) : result (list (Animation.t * Q)) :=
  match anims with
  | [] => Ok active
  | anim :: rest =>
      let anim_duration := Animation.duration anim in
      if Qlt_bool time anim_duration then
        alpha ← pydiv time anim_duration;
        parallel_loop time rest (active ++ [(anim, alpha)])
      else
        parallel_loop time rest (active ++ [(anim, 1)])
  end.

Definition get_active_animations (b : t) (time : Q) : result (list (Animation.t * Q)) :=
  if sequential b
  then sequential_loop (per_animation_duration b) time 0 (animations b) []
  else parallel_loop time (animations b) [].

End AnimationBlock.

(** ** Timeline *)

Module Timeline.

Record t : Type := mk {
  fps : Z;
  blocks : list (AnimationBlock.t * Q);   (* (block, start_time) *)
  total_duration : Q;
}.

Definition __init__ (fps : Z) : t := mk fps [] 0.

Definition add_block (tl : t) (animations : list Animation.t) (duration : Q)
    (sequential : bool) : t :=
  let block := AnimationBlock.__init__ animations duration sequential in
  let start_time := total_duration tl in
  mk (fps tl) (blocks tl ++ [(block, start_time)]) (total_duration tl + duration).

Definition add_sequential (tl : t) (animations : list Animation.t) (duration : Q) : t :=
  add_block tl animations duration true.

Definition add_parallel (tl : t) (animations : list Animation.t) (duration : Q) : t :=
  add_block tl animations duration false.

(** The loop over [self.blocks]. *)
Fixpoint blocks_loop (time : Q) (bs : list (AnimationBlock.t * Q))
    (active : list (Animation.t * Q)) : result (list (Animation.t * Q)) :=
  match bs with
  | [] => Ok active
  | (block, start_time) :: rest =>
      let block_time := time - start_time in
      if Qlt_bool block_time 0 then
        blocks_loop time rest active
      else if Qle_bool (AnimationBlock.duration block) block_time then
        blocks_loop time rest
          (active ++ map (λ anim, (anim, 1)) (AnimationBlock.animations block))
      else
        block_active ← AnimationBlock.get_active_animations block block_time;
        blocks_loop time rest (active ++ block_active)
  end.

Definition get_active_animations (tl : t) (frame : Z) : result (list (Animation.t * Q)) :=
  time ← pydiv (inject_Z frame) (inject_Z (fps tl));
  blocks_loop time (blocks tl) [].

Definition total_frames (tl : t) : Z :=
  (py_int (total_duration tl * inject_Z (fps tl)) + 1)%Z.

Definition reset (tl : t) : t := mk (fps tl) [] 0.

End Timeline.

(** ** The same lines in binary64

    [AnimationBlock] of timeline.py and the hooks of scale.py once more, over
    primitive binary64 floats: every operation rounds to nearest, ties to
    even, as Python's [float] does.  The lists of a block hold animations of
    which only the declared duration is read. *)

Module Binary64.

(** [float(n)] for a list length or a loop index (exact below 2^53). *)
Definition of_nat (n : nat) : float := PrimFloat.of_uint63 (Uint63.of_Z (Z.of_nat n)).

(** Python's true division on floats. *)
Definition pydiv (x y : float) : result float :=
  if PrimFloat.eqb y 0 then Raise ZeroDivisionError else Ok (PrimFloat.div x y).

Module Animation.

Record t : Type := mk {
  mobject : nat;
  duration : float;
}.

End Animation.

Module AnimationBlock.

Record t : Type := mk {
  animations : list Animation.t;
  duration : float;
  sequential : bool;
  per_animation_duration : float;
}.

Definition __init__ (animations : list Animation.t) (duration : float) (sequential : bool) : t :=
  mk animations duration sequential
     (if sequential && (0 <? length animations)%nat
      then PrimFloat.div duration (of_nat (length animations))
      else duration).

Fixpoint sequential_loop (per time : float) (i : nat) (anims : list Animation.t)
    (active : list (Animation.t * float)) : result (list (Animation.t * float)) :=
  match anims with
  | [] => Ok active
  | anim :: rest =>
      let anim_start := PrimFloat.mul (of_nat i) per in
      let anim_end := PrimFloat.add anim_start per in
      if PrimFloat.leb anim_start time && PrimFloat.ltb time anim_end then
        let local_time := PrimFloat.sub time anim_start in
        alpha ← pydiv local_time per;
        sequential_loop per time (S i) rest (active ++ [(anim, alpha)])
      else if PrimFloat.leb anim_end time then
        sequential_loop per time (S i) rest (active ++ [(anim, 1%float)])
      else
        sequential_loop per time (S i) rest active
  end.

Fixpoint parallel_loop (time : float) (anims : list Animation.t)
    (active : list (Animation.t * float)) : result (list (Animation.t * float)) :=
  match anims with
  | [] => Ok active
  | anim :: rest =>
      let anim_duration := Animation.duration anim in
      if PrimFloat.ltb time anim_duration then
        alpha ← pydiv time anim_duration;
        parallel_loop time rest (active ++ [(anim, alpha)])
      else
        parallel_loop time rest (active ++ [(anim, 1%float)])
  end.

Definition get_active_animations (b : t) (time : float)
    : result (list (Animation.t * float)) :=
  if sequential b
  then sequential_loop (per_animation_duration b) time 0 (animations b) []
  else parallel_loop time (animations b) [].

End AnimationBlock.

(** The linear interpolation of the hooks, [start + alpha * (end - start)],
    each operation rounded. *)
Definition lerp (start end_ alpha : float) : float :=
  PrimFloat.add start (PrimFloat.mul alpha (PrimFloat.sub end_ start)).

(** A float that is neither an infinity nor NaN. *)
Definition finite (x : float) : Prop :=
  match Prim2SF x with
  | S754_zero _ | S754_finite _ _ _ => True
  | S754_infinity _ | S754_nan => False
  end.

(** [Scale] of scale.py; its snapshots and its target hold floats. *)
Module Scale.

Record t : Type := mk {
  target_scale : float;
  _initial_state : option (gmap string float);
  _final_state : option (gmap string float);
}.

Definition getitem (d : option (gmap string float)) (key : string) : result float :=
  match d with
  | None => Raise TypeError
  | Some s =>
      match s !! key with
      | Some v => Ok v
      | None => Raise (KeyError key)
      end
  end.

Definition _capture_final_state (a : t) : result (gmap string float) :=
  initial_scale ← getitem (_initial_state a) "scale_factor";
  Ok {[ "scale_factor" := PrimFloat.mul initial_scale (target_scale a) ]}.

Definition _interpolate (a : t) (alpha : float) (m : gmap string float)
    : result (gmap string float) :=
  start_scale ← getitem (_initial_state a) "scale_factor";
  end_scale ← getitem (_final_state a) "scale_factor";
  Ok (<[ "scale_factor" := lerp start_scale end_scale alpha ]> m).

End Scale.

(** [n] animations of one second each, on objects [0 .. n-1]. *)
Definition animations (n : nat) : list Animation.t :=
  map (λ k, Animation.mk k 1%float) (seq 0 n).

(** The animation on object [k]. *)
Definition anim (k : nat) : Animation.t := Animation.mk k 1%float.

End Binary64.

(** ** Closed forms of the scheduling loops

    What each loop appends, as a function of the list it walks.  The lemmas
    of the next section show that the loops compute exactly these lists. *)

(** What the sequential loop appends for the animations from index [i] on. *)
Fixpoint sequential_entries (per time : Q) (i : nat) (anims : list Animation.t)
    : list (Animation.t * Q) :=
  match anims with
  | [] => []
  | anim :: rest =>
      let anim_start := of_nat i * per in
      let anim_end := anim_start + per in
      if Qle_bool anim_start time && Qlt_bool time anim_end then
        (anim, (time - anim_start) / per) :: sequential_entries per time (S i) rest
      else if Qle_bool anim_end time then
        (anim, 1) :: sequential_entries per time (S i) rest
      else
        sequential_entries per time (S i) rest
  end.

(** What the parallel loop appends for one animation. *)
Definition parallel_entry (time : Q) (anim : Animation.t) : Animation.t * Q :=
  if Qlt_bool time (Animation.duration anim)
  then (anim, time / Animation.duration anim)
  else (anim, 1).

(** Every animation of a list pinned at progress 1.0. *)
Definition finished (anims : list Animation.t) : list (Animation.t * Q) :=
  map (λ anim, (anim, 1)) anims.

(** What a block appends at [time], whatever its mode. *)
Definition block_entries (b : AnimationBlock.t) (time : Q) : list (Animation.t * Q) :=
  if AnimationBlock.sequential b
  then sequential_entries (AnimationBlock.per_animation_duration b) time 0
         (AnimationBlock.animations b)
  else map (parallel_entry time) (AnimationBlock.animations b).

(** What the timeline appends for one [(block, start_time)] pair. *)
Definition block_contribution (time : Q) (entry : AnimationBlock.t * Q)
    : list (Animation.t * Q) :=
  let block_time := time - entry.2 in
  if Qlt_bool block_time 0 then []
  else if Qle_bool (AnimationBlock.duration entry.1) block_time
       then finished (AnimationBlock.animations entry.1)
       else block_entries entry.1 block_time.

(** ** The properties under study, in the words of the specification *)

(** "progress = min(localTime / animation.duration, 1.0); if
    animation.duration = 0, progress is immediately 1.0". *)
Definition spec_parallel_progress (localTime anim_duration : Q) : Q :=
  if Qeq_bool anim_duration 0 then 1 else Qmin (localTime / anim_duration) 1.



(** The contribution [c] of one [(block, start)] pair to the timeline's
    result at [time]: nothing before the block starts, everything at 1.0
    once it has elapsed, the block's own answer in between. *)
Definition contributes (time : Q) (entry : AnimationBlock.t * Q)
    (c : list (Animation.t * Q)) : Prop :=
  (time < entry.2 ∧ c = [])
  ∨ (entry.2 <= time
     ∧ AnimationBlock.duration entry.1 <= time - entry.2
     ∧ c = finished (AnimationBlock.animations entry.1))
  ∨ (entry.2 <= time
     ∧ time - entry.2 < AnimationBlock.duration entry.1
     ∧ AnimationBlock.get_active_animations entry.1 (time - entry.2) = Ok c).

(** The attribute [key] of the target holds the value the snapshot records
    for it. *)
Definition holds_snapshot_value (key : string) (m : MObject) (s : snapshot) : Prop :=
  ∃ w v, m !! key = Some w ∧ s !! key = Some v ∧ value_eq w v.

(** "evaluate(0.0) attribute values equal the initial snapshot". *)
Definition reproduces_initial (a : Animation.t) (m : MObject) : Prop :=
  ∃ a' m' s,
    Animation.evaluate a 0 m = Ok (a', m')
    ∧ Animation._initial_state a' = Some s
    ∧ holds_snapshot_value (Animation.governed (Animation.kind a)) m' s.

(** "evaluate(1.0) [attribute values] equal the final snapshot". *)
Definition reproduces_final (a : Animation.t) (m : MObject) : Prop :=
  ∃ a' m' s,
    Animation.evaluate a 1 m = Ok (a', m')
    ∧ Animation._final_state a' = Some s
    ∧ holds_snapshot_value (Animation.governed (Animation.kind a)) m' s.

(** An animation "whose initial snapshot has been captured": the initial
    snapshot is set and its governed attribute has the shape the data model
    gives it (a 2D vector for [position], a scalar otherwise); the final
    snapshot is either not stored yet or the one the kind derives. *)
Definition captured (a : Animation.t) (init : snapshot) : Prop :=
  Animation._initial_state a = Some init
  ∧ (∀ fin, Animation._final_state a = Some fin → Animation._capture_final_state a = Ok fin)
  ∧ match Animation.kind a with
    | Animation.Move _ => ∃ x y, init !! "position" = Some (VVec x y)
    | Animation.Scale _ => ∃ x, init !! "scale_factor" = Some (VNum x)
    | Animation.Rotate _ => ∃ x, init !! "rotation" = Some (VNum x)
    | Animation.FadeIn | Animation.FadeOut => ∃ x, init !! "opacity" = Some (VNum x)
    end.

(** The kinds that interpolate between the two snapshots. *)
Definition interpolating (k : Animation.Kind) : Prop :=
  match k with
  | Animation.Move _ | Animation.Scale _ | Animation.Rotate _ => True
  | Animation.FadeIn | Animation.FadeOut => False
  end.

(** The mutators of a timeline, as a script of operations. *)
Inductive timeline_op : Type :=
| OpAddBlock (animations : list Animation.t) (duration : Q) (sequential : bool)
| OpAddSequential (animations : list Animation.t) (duration : Q)
| OpAddParallel (animations : list Animation.t) (duration : Q)
| OpReset.

Definition apply_op (tl : Timeline.t) (o : timeline_op) : Timeline.t :=
  match o with
  | OpAddBlock animations duration sequential =>
      Timeline.add_block tl animations duration sequential
  | OpAddSequential animations duration => Timeline.add_sequential tl animations duration
  | OpAddParallel animations duration => Timeline.add_parallel tl animations duration
  | OpReset => Timeline.reset tl
  end.

Definition run (tl : Timeline.t) (ops : list timeline_op) : Timeline.t :=
  fold_left apply_op ops tl.

(** The duration an operation adds to the timeline. *)
Definition op_duration (o : timeline_op) : Q :=
  match o with
  | OpAddBlock _ duration _ | OpAddSequential _ duration | OpAddParallel _ duration =>
      duration
  | OpReset => 0
  end.

(** The running sum [0.0 + d0 + d1 + ...] of the durations of some blocks,
    added in list order as [total_duration += duration] does. *)
Definition sum_durations (bs : list (AnimationBlock.t * Q)) : Q :=
  fold_left (λ acc entry, acc + AnimationBlock.duration entry.1) bs 0.

(** "block i's start = sum of durations of blocks 0..i-1", and the running
    total is the sum of all of them. *)
Definition contiguous (tl : Timeline.t) : Prop :=
  (∀ i entry, Timeline.blocks tl !! i = Some entry
              → entry.2 = sum_durations (take i (Timeline.blocks tl)))
  ∧ Timeline.total_duration tl = sum_durations (Timeline.blocks tl).

(** ** Sample animations and blocks *)

(** An animation as its constructor leaves it: default easing, nothing
    captured yet. *)
Definition fresh (k : Animation.Kind) (target : nat) (duration : Q) : Animation.t :=
  Animation.mk k target duration linear None None.

(** [Rotate(obj0, 3, duration=1)], [Scale(obj0, 2, duration=1)] and
    [FadeIn(obj1, duration=2)]. *)
Definition spin : Animation.t := fresh (Animation.Rotate 3) 0 1.
Definition grow : Animation.t := fresh (Animation.Scale 2) 0 1.
Definition slow : Animation.t := fresh Animation.FadeIn 1 2.

(** A two-second sequential block at 30 fps, then a one-second parallel
    block whose only animation lasts two seconds. *)
Definition two_seconds : Timeline.t :=
  Timeline.add_sequential (Timeline.__init__ 30) [spin; grow] 2.
Definition demo : Timeline.t := Timeline.add_parallel two_seconds [slow] 1.

(** A target object at the origin, half transparent. *)
Definition target : MObject :=
  {[ "position" := VVec 0 0; "rotation" := VNum 0;
     "scale_factor" := VNum 1; "opacity" := VNum (1 # 2) ]}.

(** [FadeIn] on [target], both snapshots captured. *)
Definition fade_in_armed : Animation.t :=
  Animation.mk Animation.FadeIn 0 1 linear
    (Some {[ "opacity" := VNum (1 # 2) ]}) (Some {[ "opacity" := VNum 1 ]}).

(** [Rotate] by 2 on [target], both snapshots captured, under an easing
    that is constantly 1/2. *)
Definition rotate_stuck : Animation.t :=
  Animation.mk (Animation.Rotate 2) 0 1 (λ _, 1 # 2)
    (Some {[ "rotation" := VNum 0 ]}) (Some {[ "rotation" := VNum (0 + 2) ]}).

(** [Rotate] by 2 on [target] with the default easing, both snapshots
    captured. *)
Definition rotate_armed : Animation.t :=
  Animation.mk (Animation.Rotate 2) 0 1 linear
    (Some {[ "rotation" := VNum 0 ]}) (Some {[ "rotation" := VNum (0 + 2) ]}).

(** ** Notions for the behaviour of the scheduler *)

(** A progress value of the unit interval, the range the docstrings of
    [get_active_animations] announce. *)
Definition in_unit (p : Q) : Prop := 0 <= p ∧ p <= 1.

(** The animations of some timeline entries, in block order. *)
Definition all_animations (bs : list (AnimationBlock.t * Q)) : list Animation.t :=
  concat (map (λ entry, AnimationBlock.animations entry.1) bs).

(** [advances r1 r2]: the result [r2] reports every animation [r1] reports,
    at the same place and at least as far, and possibly more after them. *)
Inductive advances : list (Animation.t * Q) → list (Animation.t * Q) → Prop :=
| advances_nil (r : list (Animation.t * Q)) : advances [] r
| advances_cons (a : Animation.t) (p1 p2 : Q) (r1 r2 : list (Animation.t * Q)) :
    p1 <= p2 → advances r1 r2 → advances ((a, p1) :: r1) ((a, p2) :: r2).



(** The calls of the fluent interface of [AnimationBuilder]. *)
Inductive builder_call : Type :=
| CallMoveTo (target : Q * Q)
| CallScale (factor : Q)
| CallFadeIn
| CallFadeOut
| CallRotate (angle : Q).

Definition apply_call (b : AnimationBuilder.t) (c : builder_call) : AnimationBuilder.t :=
  match c with
  | CallMoveTo target => AnimationBuilder.move_to b target
  | CallScale factor => AnimationBuilder.scale b factor
  | CallFadeIn => AnimationBuilder.fade_in b
  | CallFadeOut => AnimationBuilder.fade_out b
  | CallRotate angle => AnimationBuilder.rotate b angle
  end.

(** [b.c1(..).c2(..)...]: a chain of calls, left to right. *)
Definition chain (b : AnimationBuilder.t) (calls : list builder_call) : AnimationBuilder.t :=
  fold_left apply_call calls b.

(** The tag a call is queued under. *)
Definition call_tag (c : builder_call) : string :=
  match c with
  | CallMoveTo _ => "move_to"
  | CallScale _ => "scale"
  | CallFadeIn => "fade_in"
  | CallFadeOut => "fade_out"
  | CallRotate _ => "rotate"
  end.

(** [Scale(obj0, 2)] on [target], both snapshots captured. *)
Definition scale_armed : Animation.t :=
  Animation.mk (Animation.Scale 2) 0 1 linear
    (Some {[ "scale_factor" := VNum 1 ]}) (Some {[ "scale_factor" := VNum (1 * 2) ]}).

(** [Move(obj0, (4, 2))] on [target], both snapshots captured. *)
Definition move_armed : Animation.t :=
  Animation.mk (Animation.Move (4, 2)) 0 1 linear
    (Some {[ "position" := VVec 0 0 ]}) (Some {[ "position" := VVec 4 2 ]}).

(** An animation of duration 0. *)
Definition instant : Animation.t := fresh Animation.FadeOut 1 0.

(** The calls that build [demo]. *)
Definition demo_script : list timeline_op :=
  [OpAddSequential [spin; grow] 2; OpAddParallel [slow] 1].

(** What an animation writes into its governed attribute at eased
    progress [alpha]: the closed form of the [_interpolate] hooks. *)
Definition written_value (a : Animation.t) (alpha : Q) : result value :=
  match Animation.kind a with
  | Animation.FadeIn => Ok (VNum alpha)
  | Animation.FadeOut => Ok (VNum (1 - alpha))
  | _ =>
      start ← getitem (Animation._initial_state a) (Animation.governed (Animation.kind a));
      end_ ← getitem (Animation._final_state a) (Animation.governed (Animation.kind a));
      Ok (Animation.lerp start end_ alpha)
  end.

(** What a call of the fluent interface queues. *)
Definition queued (c : builder_call) : string * AnimationBuilder.param :=
  match c with
  | CallMoveTo target => (call_tag c, AnimationBuilder.PTarget target)
  | CallScale factor => (call_tag c, AnimationBuilder.PNum factor)
  | CallFadeIn | CallFadeOut => (call_tag c, AnimationBuilder.PNone)
  | CallRotate angle => (call_tag c, AnimationBuilder.PNum angle)
  end.

(** The kinds whose final snapshot is computed from the initial one. *)
Definition reads_initial (k : Animation.Kind) : Prop :=
  match k with
  | Animation.Scale _ | Animation.Rotate _ => True
  | Animation.Move _ | Animation.FadeIn | Animation.FadeOut => False
  end.

(** [Rotate] by 2 on [target] with the default easing: the initial
    snapshot captured, the final one not stored yet. *)
Definition rotate_captured : Animation.t :=
  Animation.mk (Animation.Rotate 2) 0 1 linear (Some {[ "rotation" := VNum 0 ]}) None.

(** In binary64: [Scale(obj, 0.1)] on an object of scale factor 1.0, both
    snapshots captured. *)
Definition scale_tenth : Binary64.Scale.t :=
  Binary64.Scale.mk (1 / 10)
    (Some {[ "scale_factor" := 1%float ]})
    (Some {[ "scale_factor" := (1 * (1 / 10))%float ]}).

(** ** Reflection of the float comparisons *)

Lemma Qlt_bool_iff (x y : Q) : Qlt_bool x y = true ↔ x < y.
Proof.
  unfold Qlt_bool. rewrite negb_true_iff.
  destruct (Qle_bool y x) eqn:E.
  - apply Qle_bool_iff in E. split; [discriminate | intros H; lra].
  - split; [intros _ | reflexivity].
    apply Qnot_le_lt. intros H. apply Qle_bool_iff in H. congruence.
Qed.

Lemma Qlt_bool_false (x y : Q) : Qlt_bool x y = false ↔ y <= x.
Proof.
  unfold Qlt_bool. rewrite negb_false_iff. apply Qle_bool_iff.
Qed.

Lemma Qle_bool_false (x y : Q) : Qle_bool x y = false ↔ y < x.
Proof.
  rewrite <- Qlt_bool_iff. unfold Qlt_bool.
  destruct (Qle_bool x y); simpl; split; congruence.
Qed.

Lemma Qeq_bool_false (x y : Q) : Qeq_bool x y = false ↔ ¬ x == y.
Proof.
  destruct (Qeq_bool x y) eqn:E.
  - apply Qeq_bool_iff in E. split; [discriminate | tauto].
  - split; [intros _ H | reflexivity].
    apply Qeq_bool_iff in H. congruence.
Qed.

Lemma pydiv_nonzero (x y : Q) : ¬ y == 0 → pydiv x y = Ok (x / y).
Proof.
  intros H. unfold pydiv. apply Qeq_bool_false in H. now rewrite H.
Qed.

(** Case analysis on the two float comparisons, with their meaning. *)
Ltac cmp_cases :=
  repeat match goal with
  | |- context [Qle_bool ?x ?y] =>
      let E := fresh "E" in
      destruct (Qle_bool x y) eqn:E;
      [apply Qle_bool_iff in E | apply Qle_bool_false in E]
  | |- context [Qlt_bool ?x ?y] =>
      let E := fresh "E" in
      destruct (Qlt_bool x y) eqn:E;
      [apply Qlt_bool_iff in E | apply Qlt_bool_false in E]
  end; simpl.

(** The three ways the sequential loop treats the animation at index [i]:
    running, finished, not started. *)
Ltac slice_cases per time i :=
  destruct (Qle_bool (of_nat i * per) time
            && Qlt_bool time (of_nat i * per + per)) eqn:Hrun;
  [ apply andb_true_iff in Hrun as [Hstart Hend];
    apply Qle_bool_iff in Hstart; apply Qlt_bool_iff in Hend
  | destruct (Qle_bool (of_nat i * per + per) time) eqn:Hfin;
    [ apply Qle_bool_iff in Hfin
    | apply Qle_bool_false in Hfin;
      assert (time < of_nat i * per) as Hbefore
        by (apply andb_false_iff in Hrun as [Hrun|Hrun];
            [apply Qle_bool_false in Hrun | apply Qlt_bool_false in Hrun]; lra) ] ].

Lemma of_nat_S (i : nat) : of_nat (S i) == of_nat i + 1.
Proof.
  unfold of_nat. rewrite Nat2Z.inj_succ, <- Z.add_1_r, inject_Z_plus. reflexivity.
Qed.

Lemma of_nat_nonneg (i : nat) : 0 <= of_nat i.
Proof.
  unfold of_nat. change 0 with (inject_Z 0). rewrite <- Zle_Qle. lia.
Qed.

Lemma of_nat_pos (i : nat) : (0 < i)%nat → 0 < of_nat i.
Proof.
  intros H. unfold of_nat. change 0 with (inject_Z 0). rewrite <- Zlt_Qlt. lia.
Qed.

(** ** The loops compute their closed forms *)

(** The sequential loop never divides by zero: the division is reached only
    under [anim_start <= time < anim_start + per], which forces [per > 0]. *)
Lemma sequential_loop_closed (per time : Q) (anims : list Animation.t) :
  ∀ i active,
    AnimationBlock.sequential_loop per time i anims active
    = Ok (active ++ sequential_entries per time i anims).
Proof.
  induction anims as [|anim rest IH]; intros i active; simpl.
  - now rewrite app_nil_r.
  - cmp_cases.
    all: try (rewrite pydiv_nonzero by (intros Hz; lra); simpl).
    all: rewrite IH, <- ?app_assoc; reflexivity.
Qed.

(** The parallel loop divides by [anim.duration] only when
    [time < anim.duration]; from [0 <= time] the divisor is positive. *)
Lemma parallel_loop_closed (time : Q) (anims : list Animation.t) :
  0 <= time →
  ∀ active,
    AnimationBlock.parallel_loop time anims active
    = Ok (active ++ map (parallel_entry time) anims).
Proof.
  intros Ht. induction anims as [|anim rest IH]; intros active; simpl.
  - now rewrite app_nil_r.
  - unfold parallel_entry at 1. cmp_cases.
    + rewrite pydiv_nonzero by (intros Hz; lra). simpl.
      rewrite IH, <- app_assoc. reflexivity.
    + rewrite IH, <- app_assoc. reflexivity.
Qed.

(** ** Shape of the sequential result *)

Lemma of_nat_le (i j : nat) : (i ≤ j)%nat → of_nat i <= of_nat j.
Proof. intros H. unfold of_nat. rewrite <- Zle_Qle. lia. Qed.

Section SequentialSlices.

(** A slice length that is not negative, and the time of the query. *)
Variables per time : Q.
Hypothesis per_nonneg : 0 <= per.

Lemma slice_start_mono (i j : nat) :
  (i ≤ j)%nat → of_nat i * per <= of_nat j * per.
Proof.
  intros Hij. apply Qmult_le_compat_r; [now apply of_nat_le | exact per_nonneg].
Qed.

(** An animation whose slice starts after [time] is not appended, nor is
    any later one. *)
Lemma sequential_entries_not_started (anims : list Animation.t) :
  ∀ i, time < of_nat i * per → sequential_entries per time i anims = [].
Proof.
  induction anims as [|anim rest IH]; intros i Hi; simpl; [reflexivity|].
  assert (time < of_nat (S i) * per) as HS by (rewrite of_nat_S; lra).
  cmp_cases; try lra; now apply IH.
Qed.


(** The sequential result is a prefix of the block's animations, and it
    stops before any index whose slice has not started. *)
Lemma sequential_entries_prefix (anims : list Animation.t) :
  ∀ i,
    map fst (sequential_entries per time i anims)
    = take (length (sequential_entries per time i anims)) anims
    ∧ ∀ j, time < of_nat j * per →
           (length (sequential_entries per time i anims) ≤ j - i)%nat.
Proof.
  induction anims as [|anim rest IH]; intros i; simpl.
  - split; [reflexivity | intros; lia].
  - destruct (IH (S i)) as [IHp IHl].
    assert (∀ j, time < of_nat j * per → of_nat i * per <= time → (S i ≤ j)%nat)
      as Hlater.
    { intros j Hj Hi. destruct (decide (S i ≤ j)%nat) as [|Hn]; [assumption|].
      pose proof (slice_start_mono j i ltac:(lia)). lra. }
    cmp_cases; try lra.
    1-2: split; [now f_equal|]; intros j Hj; specialize (IHl j Hj);
         specialize (Hlater j Hj ltac:(lra)); lia.
    rewrite sequential_entries_not_started by (rewrite of_nat_S; lra).
    split; [reflexivity | simpl; intros; lia].
Qed.

End SequentialSlices.

(** The slice length computed by the constructor. *)
Lemma init_sequential_per (anims : list Animation.t) (D : Q) :
  anims ≠ [] →
  AnimationBlock.per_animation_duration (AnimationBlock.__init__ anims D true)
  = D / of_nat (length anims).
Proof.
  intros Hne. destruct anims; [congruence | reflexivity].
Qed.

Lemma slice_length_nonneg (D : Q) (n : nat) : 0 <= D → 0 <= D / of_nat n.
Proof.
  intros HD. destruct n as [|n].
  - unfold of_nat, Qdiv, Qinv. simpl. rewrite Qmult_0_r. apply Qle_refl.
  - apply Qle_shift_div_l; [apply of_nat_pos; lia | lra].
Qed.


(** ** The block and the timeline compute their closed forms *)

Lemma block_closed (b : AnimationBlock.t) (time : Q) :
  0 <= time ∨ AnimationBlock.sequential b = true →
  AnimationBlock.get_active_animations b time = Ok (block_entries b time).
Proof.
  intros H. unfold AnimationBlock.get_active_animations, block_entries.
  destruct (AnimationBlock.sequential b).
  - apply sequential_loop_closed.
  - destruct H as [H|H]; [|discriminate]. now apply parallel_loop_closed.
Qed.

Lemma blocks_loop_closed (time : Q) (bs : list (AnimationBlock.t * Q)) :
  ∀ active,
    Timeline.blocks_loop time bs active
    = Ok (active ++ concat (map (block_contribution time) bs)).
Proof.
  induction bs as [|[block start_time] rest IH]; intros active; simpl.
  - now rewrite app_nil_r.
  - unfold block_contribution at 1. simpl. cmp_cases.
    all: try (rewrite block_closed by (left; assumption); simpl).
    all: rewrite IH, <- ?app_assoc; reflexivity.
Qed.

(** * Properties of the specification *)

(** ** Sequential blocks *)

(** C10. In a sequential block (of non-negative duration), an animation
    whose slice has not started yet, [localTime < i * d], is left out of the
    result of [get_active_animations]: the result lists a prefix of the
    block's animations, in order, and that prefix stops before index [i];
    so index [i] is reported neither at 0.0 nor at any other progress. *)
Theorem sequential_not_started_omitted
    (anims : list Animation.t) (D t : Q) (i : nat) :
  0 <= D →
  (i < length anims)%nat →
  t < of_nat i * (D / of_nat (length anims)) →
  ∃ r, AnimationBlock.get_active_animations (AnimationBlock.__init__ anims D true) t = Ok r
       ∧ map fst r = take (length r) anims
       ∧ (length r ≤ i)%nat.
Proof.
  intros HD Hi Ht.
  assert (anims ≠ []) as Hne by (destruct anims; [simpl in Hi; lia | discriminate]).
  unfold AnimationBlock.get_active_animations.
  rewrite (init_sequential_per anims D Hne). simpl.
  rewrite sequential_loop_closed. simpl.
  pose proof (slice_length_nonneg D (length anims) HD) as Hper.
  destruct (sequential_entries_prefix _ t Hper anims 0%nat) as [Hprefix Hlen].
  eexists. split; [reflexivity|]. split; [exact Hprefix|].
  specialize (Hlen i Ht). lia.
Qed.

Lemma sequential_not_started_omitted_witness :
  ∃ r, AnimationBlock.get_active_animations
         (AnimationBlock.__init__ [spin; grow] 2 true) (1 # 2) = Ok r
       ∧ map fst r = take (length r) [spin; grow]
       ∧ (length r ≤ 1)%nat.
Proof.
  apply (sequential_not_started_omitted [spin; grow] 2 (1 # 2) 1).
  - vm_compute. discriminate.
  - simpl. lia.
  - vm_compute. reflexivity.
Defined.

(** An animation whose slice has started is reported at the place of its
    index: at [(time - i * per) / per] while [time] is below the end
    [i * per + per] of the slice, at 1.0 from then on. *)
Lemma sequential_entries_reported (per time : Q) (k : nat) :
  0 <= per → of_nat k * per <= time →
  ∀ (anims : list Animation.t) i anim,
    (i ≤ k)%nat → anims !! (k - i)%nat = Some anim →
    sequential_entries per time i anims !! (k - i)%nat
    = Some (anim, if Qlt_bool time (of_nat k * per + per)
                  then (time - of_nat k * per) / per else 1).
Proof.
  intros Hper Hk.
  induction anims as [|a rest IH]; intros i anim Hik Hlook; [discriminate|].
  destruct (decide (i = k)) as [->|Hne].
  - rewrite Nat.sub_diag in Hlook |- *. simpl in Hlook. injection Hlook as ->.
    simpl. slice_cases per time k; simpl.
    + now assert (Qlt_bool time (of_nat k * per + per) = true) as ->
        by (apply Qlt_bool_iff; lra).
    + now assert (Qlt_bool time (of_nat k * per + per) = false) as ->
        by (apply Qlt_bool_false; lra).
    + lra.
  - assert (S i ≤ k)%nat as HS by lia.
    replace (k - i)%nat with (S (k - S i)) in Hlook |- * by lia.
    simpl in Hlook. simpl.
    pose proof (slice_start_mono per Hper i k ltac:(lia)) as Hmono.
    slice_cases per time i; simpl; [now apply IH | now apply IH | lra].
Qed.

(** C4, as the code has it.  In a sequential block of [N >= 1] animations
    with duration [D > 0] and slice length [d = D / N], at a time [t] of
    [[0, D)]: the animation at index [i] is reported with progress
    [(t - i*d) / d] whenever [t] lies in its slice as the code computes it,
    [i*d <= t < i*d + d], a progress that is 0 at the start of the slice,
    below 1, and never decreases as [t] sweeps the slice; and it is reported
    with progress exactly 1.0 whenever its slice end [i*d + d] is at or
    before [t].  A sequential block without animations yields the empty list
    at every time. *)
Theorem sequential_slice_progress :
  (∀ D t : Q,
      AnimationBlock.get_active_animations (AnimationBlock.__init__ [] D true) t = Ok [])
  ∧ ∀ (anims : list Animation.t) (D t : Q),
      (1 ≤ length anims)%nat → 0 < D → 0 <= t → t < D →
      let d := D / of_nat (length anims) in
      ∃ r,
        AnimationBlock.get_active_animations (AnimationBlock.__init__ anims D true) t = Ok r
        ∧ ∀ i anim, anims !! i = Some anim →
            (of_nat i * d <= t → t < of_nat i * d + d →
             r !! i = Some (anim, (t - of_nat i * d) / d)
             ∧ 0 <= (t - of_nat i * d) / d
             ∧ (t - of_nat i * d) / d < 1
             ∧ (t == of_nat i * d → (t - of_nat i * d) / d == 0)
             ∧ ∀ t', of_nat i * d <= t' → t' <= t →
                     (t' - of_nat i * d) / d <= (t - of_nat i * d) / d)
            ∧ (of_nat i * d + d <= t → r !! i = Some (anim, 1)).
Proof.
  split; [reflexivity|].
  intros anims D t HN HD Ht0 HtD d.
  assert (anims ≠ []) as Hne by (destruct anims; [simpl in HN; lia | discriminate]).
  assert (0 < d) as Hd.
  { unfold d. apply Qlt_shift_div_l; [apply of_nat_pos; lia | lra]. }
  exists (sequential_entries d t 0 anims). split.
  - unfold AnimationBlock.get_active_animations.
    rewrite (init_sequential_per anims D Hne). simpl. fold d.
    now rewrite sequential_loop_closed.
  - intros i anim Hlook.
    assert (∀ (Hstart : of_nat i * d <= t),
              sequential_entries d t 0 anims !! i
              = Some (anim, if Qlt_bool t (of_nat i * d + d)
                            then (t - of_nat i * d) / d else 1)) as Hrep.
    { intros Hstart.
      pose proof (sequential_entries_reported d t i ltac:(lra) Hstart anims 0%nat anim
                    ltac:(lia)) as H.
      rewrite Nat.sub_0_r in H. now apply H. }
    split.
    + intros Hlo Hhi. rewrite (Hrep Hlo).
      assert (Qlt_bool t (of_nat i * d + d) = true) as -> by (apply Qlt_bool_iff; lra).
      split; [reflexivity|]. split; [apply Qle_shift_div_l; lra|].
      split; [apply Qlt_shift_div_r; lra|]. split.
      * intros Heq. rewrite Heq. field. lra.
      * intros t' Hlo' Hle. apply Qmult_le_compat_r; [lra|].
        apply Qlt_le_weak, Qinv_lt_0_compat, Hd.
    + intros Hend_le.
      pose proof (of_nat_nonneg i) as Hi0.
      rewrite Hrep by lra.
      now assert (Qlt_bool t (of_nat i * d + d) = false) as ->
        by (apply Qlt_bool_false; lra).
Qed.

Lemma sequential_slice_progress_witness :
  ∃ r,
    AnimationBlock.get_active_animations (AnimationBlock.__init__ [spin; grow] 2 true) (3 # 2)
    = Ok r
    ∧ ∀ i anim, [spin; grow] !! i = Some anim →
        (of_nat i * (2 / of_nat 2) <= 3 # 2 → 3 # 2 < of_nat i * (2 / of_nat 2) + 2 / of_nat 2 →
         r !! i = Some (anim, ((3 # 2) - of_nat i * (2 / of_nat 2)) / (2 / of_nat 2))
         ∧ 0 <= ((3 # 2) - of_nat i * (2 / of_nat 2)) / (2 / of_nat 2)
         ∧ ((3 # 2) - of_nat i * (2 / of_nat 2)) / (2 / of_nat 2) < 1
         ∧ ((3 # 2) == of_nat i * (2 / of_nat 2)
            → ((3 # 2) - of_nat i * (2 / of_nat 2)) / (2 / of_nat 2) == 0)
         ∧ ∀ t', of_nat i * (2 / of_nat 2) <= t' → t' <= 3 # 2 →
                 (t' - of_nat i * (2 / of_nat 2)) / (2 / of_nat 2)
                 <= ((3 # 2) - of_nat i * (2 / of_nat 2)) / (2 / of_nat 2))
        ∧ (of_nat i * (2 / of_nat 2) + 2 / of_nat 2 <= 3 # 2 → r !! i = Some (anim, 1)).
Proof.
  apply (proj2 sequential_slice_progress [spin; grow] 2 (3 # 2)).
  - simpl. lia.
  - reflexivity.
  - vm_compute. discriminate.
  - reflexivity.
Defined.

(** C4, as stated, fails under rounding: the slices the code computes do not
    tile the block.  In binary64, with 9 animations over 1.0 s at
    [t = 20/30], animation 5 is still running (at 0.9999999999999994) while
    animation 6 has started (at 0.0): the slice of animation 5 has ended for
    the claim, which wants it at 1.0.  With 10 animations over 1.0 s at
    [t = 6/10], six animations have finished and none is running: [t] lies in
    slice 6 for the claim, which wants animation 6 reported, but [6 * 0.1]
    rounds above [t].  And two distinct times of one slice can be given the
    same progress, so the progress is not strictly increasing. *)
Lemma sequential_slices_do_not_tile :
  Binary64.AnimationBlock.get_active_animations
    (Binary64.AnimationBlock.__init__ (Binary64.animations 9) 1 true) (20 / 30)
  = Ok [(Binary64.anim 0, 1%float); (Binary64.anim 1, 1%float); (Binary64.anim 2, 1%float);
        (Binary64.anim 3, 1%float); (Binary64.anim 4, 1%float);
        (Binary64.anim 5, 0x1.ffffffffffffbp-1%float); (Binary64.anim 6, 0%float)]
  ∧ Binary64.AnimationBlock.get_active_animations
      (Binary64.AnimationBlock.__init__ (Binary64.animations 10) 1 true) (6 / 10)
    = Ok [(Binary64.anim 0, 1%float); (Binary64.anim 1, 1%float); (Binary64.anim 2, 1%float);
          (Binary64.anim 3, 1%float); (Binary64.anim 4, 1%float); (Binary64.anim 5, 1%float)]
  ∧ PrimFloat.ltb (6 / 10) (Binary64.of_nat 6 * (1 / Binary64.of_nat 10)) = true
  ∧ PrimFloat.ltb 0x1.f3b645a1cac08p-5 0x1.f3b645a1cac09p-5 = true
  ∧ Binary64.AnimationBlock.get_active_animations
      (Binary64.AnimationBlock.__init__ (Binary64.animations 10) 1 true)
      0x1.f3b645a1cac08p-5
    = Ok [(Binary64.anim 0, 0x1.3851eb851eb85p-1%float)]
  ∧ Binary64.AnimationBlock.get_active_animations
      (Binary64.AnimationBlock.__init__ (Binary64.animations 10) 1 true)
      0x1.f3b645a1cac09p-5
    = Ok [(Binary64.anim 0, 0x1.3851eb851eb85p-1%float)].
Proof. repeat split; vm_compute; reflexivity. Qed.

(** ** Parallel blocks *)

Lemma parallel_entry_spec (t : Q) (a : Animation.t) :
  0 <= t → 0 <= Animation.duration a →
  (parallel_entry t a).1 = a
  ∧ (parallel_entry t a).2 == spec_parallel_progress t (Animation.duration a)
  ∧ (Animation.duration a == 0 → (parallel_entry t a).2 = 1).
Proof.
  intros Ht Hdur. unfold parallel_entry, spec_parallel_progress.
  destruct (Qlt_bool t (Animation.duration a)) eqn:E;
    [apply Qlt_bool_iff in E | apply Qlt_bool_false in E]; simpl;
    (split; [reflexivity|]); (split; [|intros Hz; try reflexivity; lra]).
  - destruct (Qeq_bool (Animation.duration a) 0) eqn:Ez;
      [apply Qeq_bool_iff in Ez; lra | clear Ez].
    symmetry. apply Q.min_l. apply Qle_shift_div_r; lra.
  - destruct (Qeq_bool (Animation.duration a) 0) eqn:Ez;
      [reflexivity | apply Qeq_bool_false in Ez].
    symmetry. apply Q.min_r. apply Qle_shift_div_l; lra.
Qed.

(** C5. In a parallel block, at a time [t] of [[0, duration)], every
    animation (its own duration a non-negative number of seconds) is reported,
    in order, at [min(t / animation.duration, 1.0)], a value that depends on
    [t] and on that animation alone; an animation of duration 0 is reported
    at 1.0.  The call returns: no division raises. *)
Theorem parallel_progress (anims : list Animation.t) (D t : Q) :
  (∀ a, a ∈ anims → 0 <= Animation.duration a) →
  0 <= t → t < D →
  ∃ r, AnimationBlock.get_active_animations (AnimationBlock.__init__ anims D false) t = Ok r
       ∧ Forall2 (λ a p, p.1 = a
                         ∧ p.2 == spec_parallel_progress t (Animation.duration a)
                         ∧ (Animation.duration a == 0 → p.2 = 1))
                 anims r.
Proof.
  intros Hdur Ht _.
  unfold AnimationBlock.get_active_animations. simpl.
  rewrite parallel_loop_closed by assumption. simpl.
  eexists. split; [reflexivity|].
  apply Forall2_fmap_r, Forall_Forall2_diag, Forall_forall.
  intros a Ha. apply parallel_entry_spec; auto.
Qed.

Lemma parallel_progress_witness :
  ∃ r, AnimationBlock.get_active_animations
         (AnimationBlock.__init__ [spin; slow] 2 false) (3 # 2) = Ok r
       ∧ Forall2 (λ a p, p.1 = a
                         ∧ p.2 == spec_parallel_progress (3 # 2) (Animation.duration a)
                         ∧ (Animation.duration a == 0 → p.2 = 1))
                 [spin; slow] r.
Proof.
  apply (parallel_progress [spin; slow] 2 (3 # 2)).
  - intros a Ha. apply list_elem_of_In in Ha.
    destruct Ha as [<- | [<- | []]]; vm_compute; discriminate.
  - vm_compute. discriminate.
  - reflexivity.
Defined.

(** ** The end of a block *)

Lemma timeline_time (tl : Timeline.t) (frame : Z) :
  Timeline.fps tl ≠ 0%Z →
  Timeline.get_active_animations tl frame
  = Ok (concat (map (block_contribution (inject_Z frame / inject_Z (Timeline.fps tl)))
                    (Timeline.blocks tl))).
Proof.
  intros Hfps. unfold Timeline.get_active_animations.
  rewrite pydiv_nonzero.
  - simpl. apply blocks_loop_closed.
  - change 0 with (inject_Z 0). rewrite inject_Z_injective. assumption.
Qed.





(** ** The timeline *)

(** C6. For a timeline with a non-zero frame rate and a frame [>= 0],
    [get_active_animations(frame)] works at [time = frame / fps] and returns
    the concatenation, in timeline order, of one contribution per block:
    nothing for a block that starts after [time] (its animations are absent,
    not pinned at 0), every animation at 1.0 for a block with
    [time - start >= block.duration], and otherwise what the block's own
    [get_active_animations(time - start)] returns. *)
Theorem timeline_active (tl : Timeline.t) (frame : Z) :
  (0 ≤ frame)%Z →
  Timeline.fps tl ≠ 0%Z →
  ∃ contributions,
    Forall2 (contributes (inject_Z frame / inject_Z (Timeline.fps tl)))
            (Timeline.blocks tl) contributions
    ∧ Timeline.get_active_animations tl frame = Ok (concat contributions).
Proof.
  intros _ Hfps.
  set (time := inject_Z frame / inject_Z (Timeline.fps tl)).
  exists (map (block_contribution time) (Timeline.blocks tl)).
  split; [| now apply timeline_time].
  apply Forall2_fmap_r, Forall_Forall2_diag, Forall_forall.
  intros [block start] _. unfold contributes, block_contribution. simpl.
  cmp_cases.
  all: first
    [ left; split; [lra | reflexivity]
    | right; left; split; [lra | split; [assumption | reflexivity]]
    | right; right; split; [lra | split; [assumption |]];
      apply block_closed; left; assumption ].
Qed.

(** ** Frame count *)

Lemma py_int_floor (x : Q) : 0 <= x → py_int x = Qfloor x.
Proof.
  destruct x as [n d]. unfold Qle, py_int, Qfloor. simpl. intros H.
  apply Z.quot_div_nonneg; lia.
Qed.

(** C7. For a timeline whose [total_duration * fps] is not negative (every
    timeline built from non-negative durations at a positive frame rate),
    [total_frames()] is [floor(total_duration * fps) + 1]; with [fps = 30]
    and [total_duration = 2.0] it is 61. *)
Theorem total_frames_floor :
  (∀ tl : Timeline.t,
      0 <= Timeline.total_duration tl * inject_Z (Timeline.fps tl) →
      Timeline.total_frames tl
      = (Qfloor (Timeline.total_duration tl * inject_Z (Timeline.fps tl)) + 1)%Z)
  ∧ (∀ tl : Timeline.t,
      Timeline.fps tl = 30%Z → Timeline.total_duration tl == 2 →
      Timeline.total_frames tl = 61%Z).
Proof.
  split.
  - intros tl H. unfold Timeline.total_frames. now rewrite py_int_floor.
  - intros tl Hfps Hdur. unfold Timeline.total_frames. rewrite Hfps.
    rewrite py_int_floor by (rewrite Hdur; vm_compute; discriminate).
    rewrite Hdur. reflexivity.
Qed.

(** The premise of the frame count holds for every timeline built from
    durations that are not negative, at a frame rate that is not negative. *)
Lemma run_fps (ops : list timeline_op) :
  ∀ tl, Timeline.fps (run tl ops) = Timeline.fps tl.
Proof.
  induction ops as [|o ops IH]; intros tl; simpl; [reflexivity|].
  rewrite IH. now destruct o.
Qed.

Lemma run_total_duration_nonneg (ops : list timeline_op) :
  Forall (λ o, 0 <= op_duration o) ops →
  ∀ tl, 0 <= Timeline.total_duration tl → 0 <= Timeline.total_duration (run tl ops).
Proof.
  induction 1 as [|o ops Ho _ IH]; intros tl Htl; simpl; [assumption|].
  apply IH. destruct o; simpl in *; lra.
Qed.

Lemma built_timeline_frames_nonneg (fps : Z) (ops : list timeline_op) :
  (0 ≤ fps)%Z →
  Forall (λ o, 0 <= op_duration o) ops →
  0 <= Timeline.total_duration (run (Timeline.__init__ fps) ops)
       * inject_Z (Timeline.fps (run (Timeline.__init__ fps) ops)).
Proof.
  intros Hfps Hops. rewrite run_fps. simpl.
  apply Qmult_le_0_compat.
  - apply run_total_duration_nonneg; [assumption | simpl; lra].
  - change 0 with (inject_Z 0). now rewrite <- Zle_Qle.
Qed.

(** ** Contiguity of the blocks *)

Lemma sum_durations_snoc (bs : list (AnimationBlock.t * Q)) (entry : AnimationBlock.t * Q) :
  sum_durations (bs ++ [entry]) = sum_durations bs + AnimationBlock.duration entry.1.
Proof. unfold sum_durations. rewrite fold_left_app. reflexivity. Qed.

Lemma init_contiguous (fps : Z) : contiguous (Timeline.__init__ fps).
Proof. split; [intros i entry H; discriminate | reflexivity]. Qed.

Lemma reset_contiguous (tl : Timeline.t) : contiguous (Timeline.reset tl).
Proof. split; [intros i entry H; discriminate | reflexivity]. Qed.

Lemma add_block_contiguous (tl : Timeline.t) (anims : list Animation.t) (d : Q) (s : bool) :
  contiguous tl → contiguous (Timeline.add_block tl anims d s).
Proof.
  intros [Hstart Htotal]. unfold Timeline.add_block. split; simpl.
  - intros i entry Hi.
    destruct (decide (i < length (Timeline.blocks tl))%nat) as [Hlt|Hge].
    + rewrite lookup_app_l in Hi by assumption.
      rewrite take_app_le by lia. now apply Hstart.
    + assert (i = length (Timeline.blocks tl)) as ->.
      { apply lookup_lt_Some in Hi. rewrite length_app in Hi. simpl in Hi. lia. }
      rewrite list_lookup_middle in Hi by reflexivity. injection Hi as <-.
      rewrite take_app_length. exact Htotal.
  - rewrite sum_durations_snoc. simpl. now rewrite Htotal.
Qed.

Lemma apply_op_contiguous (tl : Timeline.t) (o : timeline_op) :
  contiguous tl → contiguous (apply_op tl o).
Proof.
  intros H. destruct o; simpl;
    [apply add_block_contiguous | apply add_block_contiguous
     | apply add_block_contiguous | apply reset_contiguous]; assumption.
Qed.

Lemma run_contiguous (ops : list timeline_op) :
  ∀ tl, contiguous tl → contiguous (run tl ops).
Proof.
  induction ops as [|o ops IH]; intros tl H; simpl; [assumption|].
  apply IH, apply_op_contiguous, H.
Qed.

(** C8. After any script of [add_block] / [add_sequential] / [add_parallel]
    / [reset] calls on a new timeline, block [i]'s recorded start time is the
    sum of the durations of blocks [0..i-1] and [total_duration] is the sum
    of all block durations; and one more call either clears the blocks (and
    zeroes the total) or appends one block at the end, starting at the old
    total, leaving the blocks already there as they were. *)
Theorem timeline_contiguous (fps : Z) (ops : list timeline_op) :
  contiguous (run (Timeline.__init__ fps) ops)
  ∧ ∀ o,
      let tl := run (Timeline.__init__ fps) ops in
      (o = OpReset
       ∧ Timeline.blocks (apply_op tl o) = []
       ∧ Timeline.total_duration (apply_op tl o) = 0)
      ∨ (o ≠ OpReset
         ∧ ∃ block,
             Timeline.blocks (apply_op tl o)
             = Timeline.blocks tl ++ [(block, Timeline.total_duration tl)]
             ∧ Timeline.total_duration (apply_op tl o)
               = Timeline.total_duration tl + AnimationBlock.duration block).
Proof.
  split.
  - apply run_contiguous, init_contiguous.
  - intros o tl. destruct o; simpl.
    4: left; repeat split.
    all: right; split; [discriminate|]; eexists; split; reflexivity.
Qed.

Lemma timeline_active_witness :
  ∃ contributions,
    Forall2 (contributes (inject_Z 75 / inject_Z (Timeline.fps demo)))
            (Timeline.blocks demo) contributions
    ∧ Timeline.get_active_animations demo 75 = Ok (concat contributions).
Proof.
  apply (timeline_active demo 75).
  - lia.
  - vm_compute. discriminate.
Defined.

Lemma total_frames_floor_witness :
  Timeline.total_frames demo
  = (Qfloor (Timeline.total_duration demo * inject_Z (Timeline.fps demo)) + 1)%Z
  ∧ Timeline.total_frames two_seconds = 61%Z.
Proof.
  split.
  - apply (proj1 total_frames_floor demo). vm_compute. discriminate.
  - apply (proj2 total_frames_floor two_seconds); reflexivity.
Defined.

(** ** The builder *)

(** C2, as the code has it: [build] returns the empty list whatever is
    queued; a builder with one queued [move_to] builds nothing. *)
Theorem build_returns_empty :
  (∀ (b : AnimationBuilder.t) (duration : Q) (easing : option (Q → Q)),
      AnimationBuilder.build b duration easing = [])
  ∧ AnimationBuilder._pending_operations
      (AnimationBuilder.move_to (AnimationBuilder.__init__ 0) (1, 0))
    = [("move_to", AnimationBuilder.PTarget (1, 0))]
  ∧ AnimationBuilder.build
      (AnimationBuilder.move_to (AnimationBuilder.__init__ 0) (1, 0)) 1 None
    = [].
Proof. repeat split. Qed.

(** ** Snapshots *)

(** C9. With the initial snapshot captured, the final snapshot of each kind
    is: for Move the absolute target position given at construction; for
    Rotate the initial rotation plus the angle; for Scale the initial scale
    factor times [target_scale]; for FadeIn opacity 1.0 and for FadeOut
    opacity 0.0. *)
Theorem final_snapshot_derivation (a : Animation.t) (init : snapshot) :
  Animation._initial_state a = Some init →
  (∀ x y, Animation.kind a = Animation.Move (x, y) →
          Animation._capture_final_state a = Ok {[ "position" := VVec x y ]})
  ∧ (∀ angle r, Animation.kind a = Animation.Rotate angle →
                init !! "rotation" = Some (VNum r) →
                Animation._capture_final_state a = Ok {[ "rotation" := VNum (r + angle) ]})
  ∧ (∀ target_scale x, Animation.kind a = Animation.Scale target_scale →
                       init !! "scale_factor" = Some (VNum x) →
                       Animation._capture_final_state a
                       = Ok {[ "scale_factor" := VNum (x * target_scale) ]})
  ∧ (Animation.kind a = Animation.FadeIn →
     Animation._capture_final_state a = Ok {[ "opacity" := VNum 1 ]})
  ∧ (Animation.kind a = Animation.FadeOut →
     Animation._capture_final_state a = Ok {[ "opacity" := VNum 0 ]}).
Proof.
  intros Hinit. unfold Animation._capture_final_state, getitem. rewrite Hinit.
  repeat split.
  - intros x y ->. reflexivity.
  - intros angle r -> ->. reflexivity.
  - intros target_scale x -> ->. reflexivity.
  - intros ->. reflexivity.
  - intros ->. reflexivity.
Qed.

Lemma final_snapshot_derivation_witness :
  Animation._capture_final_state rotate_armed = Ok {[ "rotation" := VNum (0 + 2) ]}.
Proof.
  refine (proj1 (proj2 (final_snapshot_derivation rotate_armed
                          {[ "rotation" := VNum 0 ]} _)) 2 0 _ _);
    reflexivity.
Defined.

(** ** Evaluation at the end points *)

Lemma evaluate_captured (a : Animation.t) (init : snapshot) :
  captured a init →
  ∃ fin a',
    Animation._capture_final_state a = Ok fin
    ∧ Animation.kind a' = Animation.kind a
    ∧ Animation._initial_state a' = Some init
    ∧ Animation._final_state a' = Some fin
    ∧ ∀ p m, Animation.evaluate a p m
             = (m' ← Animation._interpolate a' (Animation.easing a p) m; Ok (a', m')).
Proof.
  intros (Hi & Hfin & Hshape).
  assert (∃ fin, Animation._capture_final_state a = Ok fin) as [fin Hc].
  { unfold Animation._capture_final_state, getitem. rewrite Hi.
    destruct (Animation.kind a) as [[tx ty]|ts|angle| |]; simpl; eauto.
    - destruct Hshape as [x ->]. simpl. eauto.
    - destruct Hshape as [x ->]. simpl. eauto. }
  exists fin.
  destruct (Animation._final_state a) as [fin0|] eqn:Hf.
  - exists a. rewrite (Hfin fin0 eq_refl) in Hc. injection Hc as ->.
    repeat split; try assumption; [now apply Hfin|].
    intros p m. unfold Animation.evaluate, Animation.capture_initial. rewrite Hi. simpl.
    unfold Animation.capture_final. rewrite Hf. reflexivity.
  - exists (Animation.set_final a fin). repeat split; try assumption.
    intros p m. unfold Animation.evaluate, Animation.capture_initial. rewrite Hi. simpl.
    unfold Animation.capture_final. rewrite Hf, Hc. reflexivity.
Qed.

Lemma lerp_at_0 (s f : Q) (alpha : Q) : alpha == 0 → s + alpha * (f - s) == s.
Proof. intros ->. ring. Qed.

(** C1, as the code has it.  For an animation whose initial snapshot has
    been captured: Move, Scale and Rotate under an easing with
    [easing(0) = 0] write, at progress 0.0, the value of the initial
    snapshot, and at any progress they write
    [start + easing(progress) * (end - start)] as the hook computes it;
    FadeIn and FadeOut under an easing with [easing(1) = 1] write, at
    progress 1.0, the value of the final snapshot; FadeIn writes opacity
    [easing(progress)] and FadeOut [1 - easing(progress)], whatever the
    initial snapshot holds. *)
Theorem evaluate_endpoints (a : Animation.t) (init : snapshot) (m : MObject) :
  captured a init →
  (interpolating (Animation.kind a) → Animation.easing a 0 == 0 → reproduces_initial a m)
  ∧ (¬ interpolating (Animation.kind a) → Animation.easing a 1 == 1 → reproduces_final a m)
  ∧ (Animation.kind a = Animation.FadeIn →
     ∀ p, ∃ a', Animation.evaluate a p m
                = Ok (a', <[ "opacity" := VNum (Animation.easing a p) ]> m))
  ∧ (Animation.kind a = Animation.FadeOut →
     ∀ p, ∃ a', Animation.evaluate a p m
                = Ok (a', <[ "opacity" := VNum (1 - Animation.easing a p) ]> m))
  ∧ (interpolating (Animation.kind a) →
     ∀ p, ∃ a' fin start end_,
       Animation.evaluate a p m
       = Ok (a', <[ Animation.governed (Animation.kind a)
                    := Animation.lerp start end_ (Animation.easing a p) ]> m)
       ∧ Animation._final_state a' = Some fin
       ∧ init !! Animation.governed (Animation.kind a) = Some start
       ∧ fin !! Animation.governed (Animation.kind a) = Some end_).
Proof.
  intros Hcap.
  destruct (evaluate_captured a init Hcap) as (fin & a' & Hc & Hk' & Hi' & Hf' & Hev).
  destruct Hcap as (Hi & _ & Hshape).
  unfold reproduces_initial, reproduces_final.
  unfold Animation._interpolate in Hev. rewrite Hk', Hi', Hf' in Hev.
  unfold Animation._capture_final_state in Hc. rewrite Hi in Hc.
  destruct (Animation.kind a) as [[tx ty]|ts|angle| |] eqn:Hk; simpl in *.
  - destruct Hshape as (x & y & Hpos). rewrite Hpos in *. simpl in *.
    injection Hc as <-. setoid_rewrite lookup_singleton_eq in Hev. simpl in Hev.
    split; [|split; [|split; [|split]]]; try discriminate.
    + intros _ H0. eexists _, _, _. split; [apply Hev|]. split; [exact Hi'|].
      eexists _, _. rewrite lookup_insert_eq, Hpos. repeat split; [simpl ..].
      all: now apply lerp_at_0.
    + intros Hn. now contradiction Hn.
    + intros _ p. eexists _, _, (VVec x y), (VVec tx ty). split; [apply Hev|]. split; [exact Hf'|].
      split; [first [assumption | reflexivity] | apply lookup_singleton_eq].
  - destruct Hshape as (x & Hx). rewrite Hx in *. simpl in *.
    injection Hc as <-. setoid_rewrite lookup_singleton_eq in Hev. simpl in Hev.
    split; [|split; [|split; [|split]]]; try discriminate.
    + intros _ H0. eexists _, _, _. split; [apply Hev|]. split; [exact Hi'|].
      eexists _, _. rewrite lookup_insert_eq, Hx. repeat split; [simpl ..].
      now apply lerp_at_0.
    + intros Hn. now contradiction Hn.
    + intros _ p. eexists _, _, (VNum x), (VNum (x * ts)). split; [apply Hev|]. split; [exact Hf'|].
      split; [first [assumption | reflexivity] | apply lookup_singleton_eq].
  - destruct Hshape as (x & Hx). rewrite Hx in *. simpl in *.
    injection Hc as <-. setoid_rewrite lookup_singleton_eq in Hev. simpl in Hev.
    split; [|split; [|split; [|split]]]; try discriminate.
    + intros _ H0. eexists _, _, _. split; [apply Hev|]. split; [exact Hi'|].
      eexists _, _. rewrite lookup_insert_eq, Hx. repeat split; [simpl ..].
      now apply lerp_at_0.
    + intros Hn. now contradiction Hn.
    + intros _ p. eexists _, _, (VNum x), (VNum (x + angle)). split; [apply Hev|]. split; [exact Hf'|].
      split; [first [assumption | reflexivity] | apply lookup_singleton_eq].
  - injection Hc as <-.
    split; [|split; [|split; [|split]]]; try discriminate; try contradiction.
    + intros _ H1. eexists _, _, _. split; [apply Hev|]. split; [exact Hf'|].
      eexists _, _. rewrite lookup_insert_eq, lookup_singleton_eq. repeat split; [simpl ..].
      exact H1.
    + intros _ p. eexists. apply Hev.
  - injection Hc as <-.
    split; [|split; [|split; [|split]]]; try discriminate; try contradiction.
    + intros _ H1. eexists _, _, _. split; [apply Hev|]. split; [exact Hf'|].
      eexists _, _. rewrite lookup_insert_eq, lookup_singleton_eq. repeat split; [simpl ..].
      rewrite H1. reflexivity.
    + intros _ p. eexists. apply Hev.
Qed.

Lemma evaluate_endpoints_witness :
  reproduces_initial rotate_captured target.
Proof.
  assert (captured rotate_captured {[ "rotation" := VNum 0 ]}) as Hcap
    by (repeat split; [intros fin H; discriminate H | simpl; exists 0; reflexivity]).
  destruct (evaluate_endpoints rotate_captured _ target Hcap) as (H0 & _).
  apply H0; [exact I | reflexivity].
Defined.

(** Reading what an animation wrote, against what a snapshot holds. *)
Ltac read_back E Hev Hs Hw Hv :=
  rewrite E in Hev; injection Hev as <- <-;
  simpl in Hs; injection Hs as <-;
  simpl in Hw, Hv;
  rewrite lookup_insert_eq in Hw; rewrite lookup_singleton_eq in Hv;
  injection Hw as <-; injection Hv as <-.

(** C1, as stated, fails.  A FadeIn whose captured initial opacity is 1/2
    writes opacity 0 at progress 0.0, under the default easing.  A Rotate
    from 0 to 2 under an easing that is constantly 1/2 writes rotation
    [0 + 1/2 * (2 - 0) = 1] at progress 0.0 and at progress 1.0.  And in
    binary64 the end point itself drifts: a Scale by 0.1 of an object of
    scale factor 1.0 has the final snapshot [1.0 * 0.1 = 0.1], and at eased
    progress 1.0 its hook writes [1.0 + 1.0 * (0.1 - 1.0)], which is
    0.09999999999999998. *)
Lemma evaluate_endpoints_fail :
  (captured fade_in_armed {[ "opacity" := VNum (1 # 2) ]}
   ∧ Animation.evaluate fade_in_armed 0 target
     = Ok (fade_in_armed, <[ "opacity" := VNum 0 ]> target)
   ∧ ¬ reproduces_initial fade_in_armed target)
  ∧ (captured rotate_stuck {[ "rotation" := VNum 0 ]}
     ∧ Animation.evaluate rotate_stuck 0 target
       = Ok (rotate_stuck, <[ "rotation" := VNum (0 + (1 # 2) * (0 + 2 - 0)) ]> target)
     ∧ Animation.evaluate rotate_stuck 1 target
       = Ok (rotate_stuck, <[ "rotation" := VNum (0 + (1 # 2) * (0 + 2 - 0)) ]> target)
     ∧ ¬ reproduces_initial rotate_stuck target
     ∧ ¬ reproduces_final rotate_stuck target)
  ∧ (Binary64.Scale._capture_final_state scale_tenth
     = Ok {[ "scale_factor" := 0x1.999999999999ap-4%float ]}
     ∧ Binary64.Scale._final_state scale_tenth
       = Some {[ "scale_factor" := 0x1.999999999999ap-4%float ]}
     ∧ Binary64.Scale._interpolate scale_tenth 1 {[ "scale_factor" := 1%float ]}
       = Ok {[ "scale_factor" := 0x1.9999999999998p-4%float ]}
     ∧ PrimFloat.ltb 0x1.9999999999998p-4 0x1.999999999999ap-4 = true).
Proof.
  assert (Animation.evaluate fade_in_armed 0 target
          = Ok (fade_in_armed, <[ "opacity" := VNum 0 ]> target)) as Efade
    by reflexivity.
  assert (∀ p, Animation.evaluate rotate_stuck p target
               = Ok (rotate_stuck,
                     <[ "rotation" := VNum (0 + (1 # 2) * (0 + 2 - 0)) ]> target)) as Erot
    by (intros p; reflexivity).
  split; [split; [|split] | split; [split; [|split; [|split; [|split]]] |]].
  - repeat split; [intros fin H; now injection H as <- | simpl; exists (1 # 2); reflexivity].
  - exact Efade.
  - intros (a' & m' & s & Hev & Hs & w & v & Hw & Hv & Heq).
    read_back Efade Hev Hs Hw Hv. discriminate Heq.
  - repeat split; [intros fin H; now injection H as <- | simpl; exists 0; reflexivity].
  - apply Erot.
  - apply Erot.
  - intros (a' & m' & s & Hev & Hs & w & v & Hw & Hv & Heq).
    read_back (Erot 0) Hev Hs Hw Hv. discriminate Heq.
  - intros (a' & m' & s & Hev & Hs & w & v & Hw & Hv & Heq).
    read_back (Erot 1) Hev Hs Hw Hv. discriminate Heq.
  - repeat split; vm_compute; reflexivity.
Qed.

(** The two end points in binary64.  At eased progress 0.0 the
    interpolation gives back the start value, for finite operands whose
    difference does not overflow (as a number: [-0.0] may come back as
    [0.0]); at eased progress 1.0 it need not give the end value, as
    [evaluate_endpoints_fail] shows.  The fades write [1.0] and
    [1.0 - 1.0 = 0.0] exactly. *)
Lemma SFcompare_refl_finite (s : bool) (m : positive) (e : Z) :
  SFcompare (S754_finite s m e) (S754_finite s m e) = Some Eq.
Proof.
  simpl. rewrite Z.compare_refl.
  change (PosDef.Pos.compare_cont Eq m m) with (Pos.compare m m).
  rewrite Pos.compare_refl. now destruct s.
Qed.

Lemma binary64_lerp_at_0 (start end_ : float) :
  Binary64.finite start →
  Binary64.finite (PrimFloat.sub end_ start) →
  PrimFloat.eqb (Binary64.lerp start end_ 0) start = true.
Proof.
  unfold Binary64.finite, Binary64.lerp. intros Hs Hd.
  rewrite FloatAxioms.eqb_spec, FloatAxioms.add_spec, FloatAxioms.mul_spec.
  change (Prim2SF 0) with (S754_zero false).
  destruct (Prim2SF (PrimFloat.sub end_ start)) as [sd| | |sd md ed]; try contradiction;
    destruct (Prim2SF start) as [ss| | |ss ms es] eqn:Es; try contradiction; simpl.
  all: unfold SFeqb.
  all: try (destruct ss, sd; reflexivity).
  all: now rewrite SFcompare_refl_finite.
Qed.

Lemma binary64_fade_out_at_1 : PrimFloat.sub 1 1 = 0%float.
Proof. reflexivity. Qed.

(** * Further properties of the code *)

(** ** Sequential blocks at every time *)

Lemma in_unit_1 : in_unit 1.
Proof. split; lra. Qed.

Lemma sequential_entries_safe (per time : Q) (anims : list Animation.t) :
  ∀ i,
    sublist (map fst (sequential_entries per time i anims)) anims
    ∧ Forall (λ p, in_unit p.2) (sequential_entries per time i anims).
Proof.
  induction anims as [|anim rest IH]; intros i; simpl.
  - split; constructor.
  - destruct (IH (S i)) as (IHsub & IHunit).
    slice_cases per time i.
    + (* running *)
      split; [now apply sublist_skip|]. constructor; [|assumption]. simpl. split.
      * apply Qle_shift_div_l; lra.
      * apply Qle_shift_div_r; lra.
    + (* finished *)
      split; [now apply sublist_skip|]. constructor; [apply in_unit_1 | assumption].
    + (* not started *)
      split; [now apply sublist_cons | assumption].
Qed.

(** A block in sequential mode answers at every time, whatever its fields
    hold (a zero or negative duration included): no division raises, the
    reported animations are animations of the block in their order, and every
    progress lies in [[0, 1]]. *)
Theorem sequential_block_safe
    (anims : list Animation.t) (duration per time : Q) :
  ∃ r,
    AnimationBlock.get_active_animations (AnimationBlock.mk anims duration true per) time
    = Ok r
    ∧ sublist (map fst r) anims
    ∧ Forall (λ p, in_unit p.2) r.
Proof.
  unfold AnimationBlock.get_active_animations. simpl.
  rewrite sequential_loop_closed. simpl.
  eexists. split; [reflexivity|]. apply sequential_entries_safe.
Qed.

(** ** Parallel blocks at every time *)

Lemma parallel_loop_raises (time : Q) (anims : list Animation.t) :
  time < 0 →
  Exists (λ a, Animation.duration a == 0) anims →
  ∀ active, AnimationBlock.parallel_loop time anims active = Raise ZeroDivisionError.
Proof.
  intros Ht. induction 1 as [anim rest Hzero | anim rest _ IH]; intros active; simpl.
  - assert (Qlt_bool time (Animation.duration anim) = true) as ->
      by (apply Qlt_bool_iff; lra).
    unfold pydiv. apply Qeq_bool_iff in Hzero. now rewrite Hzero.
  - destruct (Qlt_bool time (Animation.duration anim)); [|apply IH].
    unfold pydiv. destruct (Qeq_bool (Animation.duration anim) 0); [reflexivity|].
    simpl. apply IH.
Qed.

Lemma parallel_loop_returns (time : Q) (anims : list Animation.t) :
  Forall (λ a, ¬ Animation.duration a == 0) anims →
  ∀ active,
    AnimationBlock.parallel_loop time anims active
    = Ok (active ++ map (parallel_entry time) anims).
Proof.
  induction 1 as [|anim rest Hnz _ IH]; intros active; simpl.
  - now rewrite app_nil_r.
  - unfold parallel_entry at 1.
    destruct (Qlt_bool time (Animation.duration anim)).
    + rewrite pydiv_nonzero by assumption. simpl.
      rewrite IH, <- app_assoc. reflexivity.
    + rewrite IH, <- app_assoc. reflexivity.
Qed.

Lemma parallel_entries_fst (time : Q) (anims : list Animation.t) :
  map fst (map (parallel_entry time) anims) = anims.
Proof.
  rewrite map_map. erewrite map_ext; [apply map_id|].
  intros a. unfold parallel_entry. now destruct (Qlt_bool time (Animation.duration a)).
Qed.

Lemma zero_duration_cases (anims : list Animation.t) :
  Exists (λ a, Animation.duration a == 0) anims
  ∨ Forall (λ a, ¬ Animation.duration a == 0) anims.
Proof.
  induction anims as [|a rest [IH|IH]].
  - right. constructor.
  - left. now apply Exists_cons_tl.
  - destruct (Qeq_dec (Animation.duration a) 0) as [Hz|Hnz].
    + left. now apply Exists_cons_hd.
    + right. now constructor.
Qed.

(** A block in parallel mode raises [ZeroDivisionError] exactly when it is
    asked at a negative time and holds an animation of duration 0; in every
    other case it returns one pair per animation, in the block's order. *)
Theorem parallel_block_division (anims : list Animation.t) (duration per time : Q) :
  let b := AnimationBlock.mk anims duration false per in
  (AnimationBlock.get_active_animations b time = Raise ZeroDivisionError
   ↔ time < 0 ∧ Exists (λ a, Animation.duration a == 0) anims)
  ∧ (AnimationBlock.get_active_animations b time ≠ Raise ZeroDivisionError
     ↔ ∃ r, AnimationBlock.get_active_animations b time = Ok r ∧ map fst r = anims).
Proof.
  unfold AnimationBlock.get_active_animations. simpl.
  assert (time < 0 ∧ Exists (λ a, Animation.duration a == 0) anims
          ∨ ∃ r, AnimationBlock.parallel_loop time anims [] = Ok r ∧ map fst r = anims)
    as [[Ht Hex] | (r & Hr & Hfst)].
  { destruct (Qlt_le_dec time 0) as [Hneg|Hpos].
    - destruct (zero_duration_cases anims) as [Hex|Hnex]; [left; now split|].
      right. rewrite parallel_loop_returns by assumption.
      eexists. split; [reflexivity|]. apply parallel_entries_fst.
    - right. rewrite parallel_loop_closed by assumption.
      eexists. split; [reflexivity|]. apply parallel_entries_fst. }
  - rewrite parallel_loop_raises by assumption. split.
    + split; [now intros _ | reflexivity].
    + split; [intros H; now contradiction H | intros (r & Hr & _); discriminate Hr].
  - rewrite Hr. split.
    + split; [discriminate | intros [Ht Hex]].
      rewrite parallel_loop_raises in Hr by assumption. discriminate Hr.
    + split; [intros _; now exists r | discriminate].
Qed.

(** ** Playback within a block never goes backwards *)




Lemma sequential_entries_advances (per t1 t2 : Q) (anims : list Animation.t) :
  0 <= per → t1 <= t2 →
  ∀ i, advances (sequential_entries per t1 i anims) (sequential_entries per t2 i anims).
Proof.
  intros Hper Ht. induction anims as [|anim rest IH]; intros i; simpl; [constructor|].
  specialize (IH (S i)).
  slice_cases per t1 i.
  - (* running at t1: running or finished at t2 *)
    rename Hstart into Hs1, Hend into He1.
    slice_cases per t2 i; [| | lra].
    + constructor; [|assumption].
      apply Qle_shift_div_l; [lra|].
      setoid_replace ((t1 - of_nat i * per) / per * per) with (t1 - of_nat i * per)
        using relation Qeq by (field; lra).
      lra.
    + constructor; [|assumption]. apply Qle_shift_div_r; lra.
  - (* finished at t1: finished at t2 *)
    clear Hrun. rename Hfin into Hfin1.
    slice_cases per t2 i; [lra | | lra].
    constructor; [lra | assumption].
  - (* not started at t1: nothing is reported from here on *)
    rewrite (sequential_entries_not_started per t1 Hper rest (S i))
      by (rewrite of_nat_S; lra).
    constructor.
Qed.


Lemma parallel_entries_advances (t1 t2 : Q) (anims : list Animation.t) :
  0 <= t1 → t1 <= t2 →
  advances (map (parallel_entry t1) anims) (map (parallel_entry t2) anims).
Proof.
  intros H0 Ht. induction anims as [|a rest IH]; simpl; [constructor|].
  unfold parallel_entry at 1 3.
  destruct (Qlt_bool t1 (Animation.duration a)) eqn:E1;
    [apply Qlt_bool_iff in E1 | apply Qlt_bool_false in E1];
    (destruct (Qlt_bool t2 (Animation.duration a)) eqn:E2;
      [apply Qlt_bool_iff in E2 | apply Qlt_bool_false in E2]);
    constructor; try assumption; try lra.
  - apply Qle_shift_div_l; [lra|].
    setoid_replace (t1 / Animation.duration a * Animation.duration a) with t1
      using relation Qeq by (field; lra).
    assumption.
  - apply Qle_shift_div_r; lra.
Qed.


Lemma block_entries_advances (b : AnimationBlock.t) (t1 t2 : Q) :
  0 <= AnimationBlock.per_animation_duration b → 0 <= t1 → t1 <= t2 →
  advances (block_entries b t1) (block_entries b t2).
Proof.
  intros Hper H0 Ht. unfold block_entries. destruct (AnimationBlock.sequential b).
  - now apply sequential_entries_advances.
  - now apply parallel_entries_advances.
Qed.


Lemma init_per_nonneg (anims : list Animation.t) (D : Q) (sequential : bool) :
  0 <= D →
  0 <= AnimationBlock.per_animation_duration (AnimationBlock.__init__ anims D sequential).
Proof.
  intros HD. unfold AnimationBlock.__init__. simpl.
  destruct (sequential && (0 <? length anims)%nat); [now apply slice_length_nonneg | assumption].
Qed.

(** Within a block of non-negative duration, in either mode, asking at a
    later time never takes progress back: every animation reported at [t1]
    is reported at [t2 >= t1] at the same place and at least as far. *)
Theorem block_playback_monotone
    (anims : list Animation.t) (D : Q) (sequential : bool) (t1 t2 : Q) :
  0 <= D → 0 <= t1 → t1 <= t2 →
  ∃ r1 r2,
    AnimationBlock.get_active_animations (AnimationBlock.__init__ anims D sequential) t1 = Ok r1
    ∧ AnimationBlock.get_active_animations (AnimationBlock.__init__ anims D sequential) t2 = Ok r2
    ∧ advances r1 r2.
Proof.
  intros HD H0 Ht.
  rewrite !block_closed by (left; lra).
  eexists _, _. split; [reflexivity|]. split; [reflexivity|].
  apply block_entries_advances; [now apply init_per_nonneg | assumption | assumption].
Qed.

Lemma block_playback_monotone_witness :
  ∃ r1 r2,
    AnimationBlock.get_active_animations
      (AnimationBlock.__init__ [spin; grow] 2 true) (1 # 2) = Ok r1
    ∧ AnimationBlock.get_active_animations
        (AnimationBlock.__init__ [spin; grow] 2 true) (3 # 2) = Ok r2
    ∧ advances r1 r2.
Proof.
  apply (block_playback_monotone [spin; grow] 2 true (1 # 2) (3 # 2));
    vm_compute; discriminate.
Defined.

Lemma parallel_block_division_witness :
  AnimationBlock.get_active_animations
    (AnimationBlock.mk [spin; instant] 1 false 1) (-1 # 2)
  = Raise ZeroDivisionError.
Proof.
  apply (proj1 (parallel_block_division [spin; instant] 1 1 (-1 # 2))).
  split; [reflexivity|]. apply Exists_cons_tl, Exists_cons_hd. reflexivity.
Defined.

(** ** The timeline at every frame *)

Lemma finished_fst (anims : list Animation.t) : map fst (finished anims) = anims.
Proof. unfold finished. rewrite map_map. apply map_id. Qed.

Lemma finished_in_unit (anims : list Animation.t) :
  Forall (λ p, in_unit p.2) (finished anims).
Proof. unfold finished. apply Forall_map, Forall_true. intros a. apply in_unit_1. Qed.

Lemma finished_app (l1 l2 : list Animation.t) :
  finished (l1 ++ l2) = finished l1 ++ finished l2.
Proof. apply map_app. Qed.

Lemma parallel_entries_in_unit (time : Q) (anims : list Animation.t) :
  0 <= time → Forall (λ p, in_unit p.2) (map (parallel_entry time) anims).
Proof.
  intros H0. apply Forall_map, Forall_true. intros a. unfold parallel_entry.
  destruct (Qlt_bool time (Animation.duration a)) eqn:E;
    [apply Qlt_bool_iff in E | apply in_unit_1]. simpl. split.
  - apply Qle_shift_div_l; lra.
  - apply Qle_shift_div_r; lra.
Qed.

Lemma block_contribution_safe (time : Q) (entry : AnimationBlock.t * Q) :
  sublist (map fst (block_contribution time entry)) (AnimationBlock.animations entry.1)
  ∧ Forall (λ p, in_unit p.2) (block_contribution time entry).
Proof.
  unfold block_contribution.
  destruct (Qlt_bool (time - entry.2) 0) eqn:Hneg;
    [split; [apply sublist_nil_l | constructor] | apply Qlt_bool_false in Hneg].
  destruct (Qle_bool (AnimationBlock.duration entry.1) (time - entry.2)).
  - rewrite finished_fst. split; [reflexivity | apply finished_in_unit].
  - unfold block_entries. destruct (AnimationBlock.sequential entry.1).
    + destruct (sequential_entries_safe
                  (AnimationBlock.per_animation_duration entry.1) (time - entry.2)
                  (AnimationBlock.animations entry.1) 0%nat) as (Hsub & Hunit).
      now split.
    + rewrite parallel_entries_fst. split; [reflexivity|].
      now apply parallel_entries_in_unit.
Qed.

(** Whatever blocks a timeline holds, and at whatever frame, every reported
    progress lies in [[0, 1]] and the reported animations are animations of
    the timeline's blocks, in timeline order. *)
Theorem timeline_progress_range (tl : Timeline.t) (frame : Z) :
  Timeline.fps tl ≠ 0%Z →
  ∃ r,
    Timeline.get_active_animations tl frame = Ok r
    ∧ sublist (map fst r) (all_animations (Timeline.blocks tl))
    ∧ Forall (λ p, in_unit p.2) r.
Proof.
  intros Hfps. rewrite timeline_time by assumption.
  eexists. split; [reflexivity|].
  generalize (inject_Z frame / inject_Z (Timeline.fps tl)). intros time.
  unfold all_animations.
  induction (Timeline.blocks tl) as [|entry rest [IHsub IHunit]]; simpl.
  - split; constructor.
  - destruct (block_contribution_safe time entry) as [Hsub Hunit].
    rewrite map_app. split; [now apply sublist_app | now apply Forall_app].
Qed.

Lemma timeline_progress_range_witness :
  ∃ r,
    Timeline.get_active_animations demo 75 = Ok r
    ∧ sublist (map fst r) (all_animations (Timeline.blocks demo))
    ∧ Forall (λ p, in_unit p.2) r.
Proof.
  apply (timeline_progress_range demo 75). vm_compute. discriminate.
Defined.

(** ** Timelines built through the interface *)





(** Consecutive blocks of a timeline built through the interface abut: the
    first block starts at 0 and every other block starts exactly where the
    one before it ends. *)
Theorem blocks_abut (fps : Z) (ops : list timeline_op) :
  let tl := run (Timeline.__init__ fps) ops in
  (∀ b s, Timeline.blocks tl !! 0%nat = Some (b, s) → s = 0)
  ∧ ∀ i b1 s1 b2 s2,
      Timeline.blocks tl !! i = Some (b1, s1) →
      Timeline.blocks tl !! S i = Some (b2, s2) →
      s2 = s1 + AnimationBlock.duration b1.
Proof.
  intros tl.
  destruct (run_contiguous ops _ (init_contiguous fps)) as [Hstart _]. fold tl in Hstart.
  split.
  - intros b s H0. now apply (Hstart 0%nat (b, s)).
  - intros i b1 s1 b2 s2 H1 H2.
    pose proof (Hstart i _ H1) as E1. pose proof (Hstart (S i) _ H2) as E2.
    simpl in E1, E2. rewrite E2, E1.
    rewrite (take_S_r _ _ _ H1), sum_durations_snoc. reflexivity.
Qed.




(** ** Reset *)

Lemma run_app (ops1 ops2 : list timeline_op) (tl : Timeline.t) :
  run tl (ops1 ++ ops2) = run (run tl ops1) ops2.
Proof. apply fold_left_app. Qed.

(** A [reset] forgets everything but the frame rate: whatever was done to a
    timeline before it, the calls that follow a [reset] leave the timeline
    exactly as they would leave a new [Timeline(fps)]. *)
Theorem reset_forgets (tl : Timeline.t) (ops1 ops2 : list timeline_op) :
  run tl (ops1 ++ OpReset :: ops2) = run (Timeline.__init__ (Timeline.fps tl)) ops2.
Proof.
  rewrite run_app. simpl. unfold Timeline.reset. rewrite run_fps. reflexivity.
Qed.

(** ** Playback on a timeline never goes backwards *)




(** ** The fluent builder *)

(** A chain of builder calls queues one operation per call, in call order,
    after what was queued before, each under the tag of its method and with
    its argument; the target object stays the same. *)
Theorem chain_queues_in_order (b : AnimationBuilder.t) (calls : list builder_call) :
  AnimationBuilder._pending_operations (chain b calls)
  = AnimationBuilder._pending_operations b ++ map queued calls
  ∧ AnimationBuilder.mobject (chain b calls) = AnimationBuilder.mobject b.
Proof.
  revert b. induction calls as [|c calls IH]; intros b; simpl.
  - now rewrite app_nil_r.
  - destruct (IH (apply_call b c)) as [-> ->].
    destruct c; simpl; rewrite <- app_assoc; split; reflexivity.
Qed.

(** ** What the interpolation hooks write *)

Lemma interpolate_closed (a : Animation.t) (alpha : Q) (m : MObject) :
  Animation._interpolate a alpha m
  = (v ← written_value a alpha;
     Ok (<[ Animation.governed (Animation.kind a) := v ]> m)).
Proof.
  unfold Animation._interpolate, written_value.
  destruct (Animation.kind a); simpl; try reflexivity.
  all: destruct (getitem (Animation._initial_state a) _); simpl; try reflexivity.
  all: destruct (getitem (Animation._final_state a) _); reflexivity.
Qed.

(** An interpolation hook writes the attribute its kind governs and leaves
    every other attribute of the target as it was. *)
Theorem interpolate_frame (a : Animation.t) (alpha : Q) (m m' : MObject) :
  Animation._interpolate a alpha m = Ok m' →
  is_Some (m' !! Animation.governed (Animation.kind a))
  ∧ ∀ name, name ≠ Animation.governed (Animation.kind a) → m' !! name = m !! name.
Proof.
  rewrite interpolate_closed. destruct (written_value a alpha) as [v|e]; simpl; [|discriminate].
  intros H. injection H as <-. split.
  - rewrite lookup_insert_eq. eauto.
  - intros name Hne. now rewrite lookup_insert_ne.
Qed.

Lemma interpolate_frame_witness :
  is_Some ((<[ "rotation" := VNum (0 + (1 # 2) * (0 + 2 - 0)) ]> target)
           !! Animation.governed (Animation.kind rotate_armed))
  ∧ ∀ name, name ≠ Animation.governed (Animation.kind rotate_armed) →
            (<[ "rotation" := VNum (0 + (1 # 2) * (0 + 2 - 0)) ]> target) !! name
            = target !! name.
Proof.
  apply (interpolate_frame rotate_armed (1 # 2) target). reflexivity.
Defined.

(** Two writes to one attribute: the later one wins.  When two animations
    govern the same attribute (in particular, one animation asked twice, as
    when seeking backwards), interpolating the second after the first gives
    what interpolating the second alone gives: a hook reads its snapshots,
    never the current state of the target. *)
Theorem interpolate_last_wins (a1 a2 : Animation.t) (alpha1 alpha2 : Q) (m m1 : MObject) :
  Animation.governed (Animation.kind a1) = Animation.governed (Animation.kind a2) →
  Animation._interpolate a1 alpha1 m = Ok m1 →
  Animation._interpolate a2 alpha2 m1 = Animation._interpolate a2 alpha2 m.
Proof.
  intros Hkey. rewrite !interpolate_closed.
  destruct (written_value a1 alpha1) as [v1|e]; simpl; [|discriminate].
  intros H. injection H as <-.
  destruct (written_value a2 alpha2) as [v2|e]; simpl; [|reflexivity].
  rewrite Hkey. now rewrite insert_insert_eq.
Qed.

Lemma interpolate_last_wins_witness :
  Animation._interpolate rotate_armed (1 # 4)
    (<[ "rotation" := VNum (0 + (1 # 2) * (0 + 2 - 0)) ]> target)
  = Animation._interpolate rotate_armed (1 # 4) target.
Proof.
  apply (interpolate_last_wins rotate_stuck rotate_armed (1 # 2) (1 # 4) target);
    reflexivity.
Defined.

(** Writes to different attributes commute: when two animations govern
    different attributes and each hook succeeds on the target, interpolating
    them in either order leaves the target in the same state. *)
Theorem interpolate_commute (a1 a2 : Animation.t) (alpha1 alpha2 : Q) (m m1 m2 : MObject) :
  Animation.governed (Animation.kind a1) ≠ Animation.governed (Animation.kind a2) →
  Animation._interpolate a1 alpha1 m = Ok m1 →
  Animation._interpolate a2 alpha2 m = Ok m2 →
  ∃ m12,
    Animation._interpolate a2 alpha2 m1 = Ok m12
    ∧ Animation._interpolate a1 alpha1 m2 = Ok m12.
Proof.
  intros Hkey. rewrite !interpolate_closed.
  destruct (written_value a1 alpha1) as [v1|e]; simpl; [|discriminate].
  destruct (written_value a2 alpha2) as [v2|e]; simpl; [|discriminate].
  intros H1 H2. injection H1 as <-. injection H2 as <-.
  eexists. split; [reflexivity|]. now rewrite insert_insert_ne.
Qed.

Lemma interpolate_commute_witness :
  ∃ m12,
    Animation._interpolate fade_in_armed (1 # 4)
      (<[ "rotation" := VNum (0 + (1 # 2) * (0 + 2 - 0)) ]> target) = Ok m12
    ∧ Animation._interpolate rotate_armed (1 # 2)
        (<[ "opacity" := VNum (1 # 4) ]> target) = Ok m12.
Proof.
  apply (interpolate_commute rotate_armed fade_in_armed (1 # 2) (1 # 4) target).
  - discriminate.
  - reflexivity.
  - reflexivity.
Defined.

(** ** When the hooks fail *)

(** [_interpolate] returns exactly when the snapshots it reads hold the
    governed attribute: FadeIn and FadeOut read none and always return, even
    on an animation that has captured nothing; Move, Scale and Rotate return
    if and only if both the initial and the final snapshot hold their
    attribute, and raise [KeyError] for a snapshot that lacks it. *)
Theorem interpolate_needs_snapshots (a : Animation.t) (alpha : Q) (m : MObject) :
  ((∃ m', Animation._interpolate a alpha m = Ok m')
   ↔ (interpolating (Animation.kind a) →
      ∃ init fin,
        Animation._initial_state a = Some init
        ∧ Animation._final_state a = Some fin
        ∧ is_Some (init !! Animation.governed (Animation.kind a))
        ∧ is_Some (fin !! Animation.governed (Animation.kind a))))
  ∧ (∀ init,
       interpolating (Animation.kind a) →
       Animation._initial_state a = Some init →
       init !! Animation.governed (Animation.kind a) = None →
       Animation._interpolate a alpha m
       = Raise (KeyError (Animation.governed (Animation.kind a))))
  ∧ (∀ init fin v,
       interpolating (Animation.kind a) →
       Animation._initial_state a = Some init →
       init !! Animation.governed (Animation.kind a) = Some v →
       Animation._final_state a = Some fin →
       fin !! Animation.governed (Animation.kind a) = None →
       Animation._interpolate a alpha m
       = Raise (KeyError (Animation.governed (Animation.kind a)))).
Proof.
  rewrite !interpolate_closed. unfold written_value, getitem.
  destruct a as [k tgt d e i f]. simpl.
  destruct k as [[tx ty]|ts|angle| |]; simpl.
  4,5: split; [split; [intros _ []|intros _; eauto] | split; intros; contradiction].
  all: split; [split|split].
  all: try (intros init Hk -> ->; reflexivity).
  all: try (intros init fin v Hk -> -> -> ->; reflexivity).
  all: try (intros (init & fin & -> & -> & [v0 ->] & [v1 ->]); simpl; eauto).
  all: intros [m' H] _; destruct i as [init|]; [|discriminate];
    destruct (init !! _) as [v0|] eqn:E0; [|discriminate];
    destruct f as [fin|]; [|discriminate];
    destruct (fin !! _) as [v1|] eqn:E1; [|discriminate];
    exists init, fin; repeat split; eauto.
Qed.

(** [_capture_final_state] returns a snapshot that holds the governed
    attribute and nothing else.  Move, FadeIn and FadeOut never fail and do
    not read the initial snapshot: their result depends on the kind alone.
    Scale and Rotate return if and only if the initial snapshot holds their
    attribute, and raise [KeyError] when it lacks it. *)
Theorem capture_final_shape (a : Animation.t) :
  (∀ fin, Animation._capture_final_state a = Ok fin →
          is_Some (fin !! Animation.governed (Animation.kind a))
          ∧ ∀ name, name ≠ Animation.governed (Animation.kind a) → fin !! name = None)
  ∧ ((∃ fin, Animation._capture_final_state a = Ok fin)
     ↔ (reads_initial (Animation.kind a) →
        ∃ init, Animation._initial_state a = Some init
                ∧ is_Some (init !! Animation.governed (Animation.kind a))))
  ∧ (∀ a', Animation.kind a' = Animation.kind a →
           ¬ reads_initial (Animation.kind a) →
           Animation._capture_final_state a' = Animation._capture_final_state a)
  ∧ (∀ init, reads_initial (Animation.kind a) →
             Animation._initial_state a = Some init →
             init !! Animation.governed (Animation.kind a) = None →
             Animation._capture_final_state a
             = Raise (KeyError (Animation.governed (Animation.kind a)))).
Proof.
  unfold Animation._capture_final_state, getitem.
  destruct a as [k tgt d e i f]. simpl.
  split; [|split; [|split]].
  - intros fin H.
    assert (∃ v, fin = {[ Animation.governed k := v ]}) as [v ->].
    { destruct k as [[tx ty]|ts|angle| |]; simpl in *;
        try (injection H as <-; eauto);
        destruct i as [init|]; try discriminate;
        destruct (init !! _); try discriminate; simpl in H; injection H as <-; eauto. }
    split; [rewrite lookup_singleton_eq; eauto|].
    intros name Hne. now apply lookup_singleton_ne.
  - destruct k as [[tx ty]|ts|angle| |]; simpl.
    1,4,5: split; [intros _ [] | intros _; eauto].
    all: split;
      [ intros [fin H] _; destruct i as [init|]; [|discriminate];
        destruct (init !! _) as [v|] eqn:E; [|discriminate];
        exists init; split; [reflexivity | rewrite E; now exists v]
      | intros H; destruct (H I) as (init & Hi & [v Hv]);
        rewrite Hi, Hv; simpl; eauto ].
  - intros a' Hk Hno. rewrite Hk.
    destruct k as [[tx ty]|ts|angle| |]; simpl in *;
      first [reflexivity | exfalso; apply Hno; exact I].
  - intros init Hk -> Hnone.
    destruct k as [[tx ty]|ts|angle| |]; simpl in *; try contradiction;
      now rewrite Hnone.
Qed.

(** ** The value written at a given progress *)

(** Rotate: with the final snapshot derived from the captured rotation [r],
    at eased progress [alpha] the hook writes the rotation
    [r + alpha * angle]: the object has turned by that fraction of the angle,
    without wrapping. *)
Theorem rotate_turns_by_fraction
    (a : Animation.t) (angle r alpha : Q) (init fin : snapshot) (m : MObject) :
  Animation.kind a = Animation.Rotate angle →
  Animation._initial_state a = Some init →
  init !! "rotation" = Some (VNum r) →
  Animation._capture_final_state a = Ok fin →
  Animation._final_state a = Some fin →
  ∃ v, Animation._interpolate a alpha m = Ok (<[ "rotation" := VNum v ]> m)
       ∧ v == r + alpha * angle.
Proof.
  intros Hk Hi Hr Hc Hf.
  unfold Animation._capture_final_state, Animation._interpolate in *.
  rewrite Hk, Hi in *. rewrite Hf. unfold getitem in *. rewrite Hr in *. simpl in *.
  injection Hc as <-. rewrite lookup_singleton_eq. simpl.
  eexists. split; [reflexivity|]. ring.
Qed.

Lemma rotate_turns_by_fraction_witness :
  ∃ v, Animation._interpolate rotate_armed (1 # 4) target
       = Ok (<[ "rotation" := VNum v ]> target)
       ∧ v == 0 + (1 # 4) * 2.
Proof.
  apply (rotate_turns_by_fraction rotate_armed 2 0 (1 # 4)
           {[ "rotation" := VNum 0 ]} {[ "rotation" := VNum (0 + 2) ]} target);
    reflexivity.
Defined.

(** Scale: with the final snapshot derived from the captured scale factor
    [x], at eased progress [alpha] the hook writes
    [x * (1 + alpha * (target_scale - 1))]: the factor applied to the
    captured scale goes linearly from 1 to [target_scale]. *)
Theorem scale_by_fraction
    (a : Animation.t) (target_scale x alpha : Q) (init fin : snapshot) (m : MObject) :
  Animation.kind a = Animation.Scale target_scale →
  Animation._initial_state a = Some init →
  init !! "scale_factor" = Some (VNum x) →
  Animation._capture_final_state a = Ok fin →
  Animation._final_state a = Some fin →
  ∃ v, Animation._interpolate a alpha m = Ok (<[ "scale_factor" := VNum v ]> m)
       ∧ v == x * (1 + alpha * (target_scale - 1)).
Proof.
  intros Hk Hi Hx Hc Hf.
  unfold Animation._capture_final_state, Animation._interpolate in *.
  rewrite Hk, Hi in *. rewrite Hf. unfold getitem in *. rewrite Hx in *. simpl in *.
  injection Hc as <-. rewrite lookup_singleton_eq. simpl.
  eexists. split; [reflexivity|]. ring.
Qed.

Lemma scale_by_fraction_witness :
  ∃ v, Animation._interpolate scale_armed (1 # 2) target
       = Ok (<[ "scale_factor" := VNum v ]> target)
       ∧ v == 1 * (1 + (1 # 2) * (2 - 1)).
Proof.
  apply (scale_by_fraction scale_armed 2 1 (1 # 2)
           {[ "scale_factor" := VNum 1 ]} {[ "scale_factor" := VNum (1 * 2) ]} target);
    reflexivity.
Defined.

(** Move: with the final snapshot derived and the captured position
    [(x, y)], at eased progress [alpha] the hook writes the point
    [(1 - alpha) * (x, y) + alpha * target] of the segment from the captured
    position to the target given at construction. *)
Theorem move_along_segment
    (a : Animation.t) (tx ty x y alpha : Q) (init fin : snapshot) (m : MObject) :
  Animation.kind a = Animation.Move (tx, ty) →
  Animation._initial_state a = Some init →
  init !! "position" = Some (VVec x y) →
  Animation._capture_final_state a = Ok fin →
  Animation._final_state a = Some fin →
  ∃ vx vy, Animation._interpolate a alpha m = Ok (<[ "position" := VVec vx vy ]> m)
           ∧ vx == (1 - alpha) * x + alpha * tx
           ∧ vy == (1 - alpha) * y + alpha * ty.
Proof.
  intros Hk Hi Hp Hc Hf.
  unfold Animation._capture_final_state, Animation._interpolate in *.
  rewrite Hk, Hi in *. rewrite Hf. unfold getitem in *. rewrite Hp in *. simpl in *.
  injection Hc as <-. rewrite lookup_singleton_eq. simpl.
  eexists _, _. split; [reflexivity|]. split; ring.
Qed.

Lemma move_along_segment_witness :
  ∃ vx vy, Animation._interpolate move_armed (1 # 2) target
           = Ok (<[ "position" := VVec vx vy ]> target)
           ∧ vx == (1 - (1 # 2)) * 0 + (1 # 2) * 4
           ∧ vy == (1 - (1 # 2)) * 0 + (1 # 2) * 2.
Proof.
  apply (move_along_segment move_armed 4 2 0 0 (1 # 2)
           {[ "position" := VVec 0 0 ]} {[ "position" := VVec 4 2 ]} target);
    reflexivity.
Defined.

(** ** What each mode ignores *)

Lemma sequential_entries_progress (per time : Q) (anims anims' : list Animation.t) :
  length anims = length anims' →
  ∀ i, map snd (sequential_entries per time i anims)
       = map snd (sequential_entries per time i anims').
Proof.
  revert anims'. induction anims as [|a rest IH]; intros [|a' rest'] Hlen i;
    try discriminate; simpl; [reflexivity|].
  injection Hlen as Hlen. specialize (IH rest' Hlen (S i)).
  destruct (Qle_bool (of_nat i * per) time && Qlt_bool time (of_nat i * per + per));
    [|destruct (Qle_bool (of_nat i * per + per) time)]; simpl; congruence.
Qed.

(** In sequential mode an animation's own declared duration plays no part:
    two sequential blocks of the same duration holding the same number of
    animations report the same progress values, whatever the animations
    are. *)
Theorem sequential_ignores_own_duration
    (anims anims' : list Animation.t) (D time : Q) :
  length anims = length anims' →
  ∃ r r',
    AnimationBlock.get_active_animations (AnimationBlock.__init__ anims D true) time = Ok r
    ∧ AnimationBlock.get_active_animations (AnimationBlock.__init__ anims' D true) time = Ok r'
    ∧ map snd r = map snd r'.
Proof.
  intros Hlen. unfold AnimationBlock.get_active_animations. simpl.
  rewrite !sequential_loop_closed. simpl.
  eexists _, _. split; [reflexivity|]. split; [reflexivity|].
  rewrite <- Hlen. now apply sequential_entries_progress.
Qed.

Lemma sequential_ignores_own_duration_witness :
  ∃ r r',
    AnimationBlock.get_active_animations
      (AnimationBlock.__init__ [spin; grow] 2 true) (3 # 2) = Ok r
    ∧ AnimationBlock.get_active_animations
        (AnimationBlock.__init__ [slow; instant] 2 true) (3 # 2) = Ok r'
    ∧ map snd r = map snd r'.
Proof.
  apply (sequential_ignores_own_duration [spin; grow] [slow; instant] 2 (3 # 2)).
  reflexivity.
Defined.

(** ** No gaps between the blocks *)

Lemma prefix_sums_cover (bs : list (AnimationBlock.t * Q)) (time : Q) :
  0 <= time → time < sum_durations bs →
  ∃ k entry,
    bs !! k = Some entry
    ∧ sum_durations (take k bs) <= time
    ∧ time < sum_durations (take k bs) + AnimationBlock.duration entry.1.
Proof.
  intros H0. induction bs as [|x bs IH] using rev_ind; intros Hlt.
  - unfold sum_durations in Hlt. simpl in Hlt. lra.
  - rewrite sum_durations_snoc in Hlt.
    destruct (Qlt_le_dec time (sum_durations bs)) as [Hin|Hout].
    + destruct (IH Hin) as (k & entry & Hk & Hlo & Hhi).
      pose proof (lookup_lt_Some _ _ _ Hk) as Hlen.
      exists k, entry. rewrite lookup_app_l by assumption.
      rewrite take_app_le by lia. auto.
    + exists (length bs), x. rewrite list_lookup_middle by reflexivity.
      rewrite take_app_length. auto.
Qed.

(** The blocks of a timeline built through the interface cover
    [[0, total_duration)] without gaps: every time of that interval lies in
    one block, between its start and its start plus its duration. *)
Theorem timeline_no_gaps (fps : Z) (ops : list timeline_op) (time : Q) :
  let tl := run (Timeline.__init__ fps) ops in
  0 <= time → time < Timeline.total_duration tl →
  ∃ k b s,
    Timeline.blocks tl !! k = Some (b, s)
    ∧ s <= time ∧ time < s + AnimationBlock.duration b.
Proof.
  intros tl H0 Hlt.
  destruct (run_contiguous ops _ (init_contiguous fps)) as [Hstart Htotal].
  fold tl in Hstart, Htotal. rewrite Htotal in Hlt.
  destruct (prefix_sums_cover _ time H0 Hlt) as (k & [b s] & Hk & Hlo & Hhi).
  exists k, b, s. rewrite <- (Hstart k (b, s) Hk) in Hlo, Hhi. auto.
Qed.

Lemma timeline_no_gaps_witness :
  ∃ k b s,
    Timeline.blocks (run (Timeline.__init__ 30) demo_script) !! k = Some (b, s)
    ∧ s <= 5 # 2 ∧ 5 # 2 < s + AnimationBlock.duration b.
Proof.
  apply (timeline_no_gaps 30 demo_script (5 # 2)).
  - vm_compute. discriminate.
  - reflexivity.
Defined.
